(** * Integral<T>: a verified model of the compuSUAVE_Professional wrapper

    The development embeds the class template [Integral<T>] of
    [Integral.hpp] and the parts of the C++ standard library it calls
    (string search, [std::bitset], formatted stream extraction and
    insertion, [std::to_string]) and proves the properties of its parsing,
    comparison, arithmetic and radix conversion operations.

    Conventions.
    - A value of an integral type is a mathematical integer ([Z]) together
      with the description [ity] of its type; wrap-around is written out.
    - The data model is LP64: [short] has 16 bits, [int] 32, [long] and
      [long long] 64, and [std::size_t] is the 64-bit [unsigned long].
      The character types and [bool] are left out, because stream
      extraction and insertion treat them as characters, not as numbers.
    - A [const char*] is the location of a character array in a memory
      that holds the arrays alive at the time.  The functions of the class
      that return one take [c_str()] of a string that is a local or a
      temporary of theirs: the array dies with that string when they
      return, and reading it afterwards is undefined.
    - The library routines follow the ISO C++ standard (C++11 and later)
      as libstdc++ implements it; where the two differ (the characters
      that the constructor of [std::bitset] examines, a negated magnitude
      read into an unsigned type) the model follows libstdc++.
    - Undefined behaviour and [std::terminate] are the [None] of an option;
      the loop of [toRadix] takes a bound on its iterations, and [None]
      there says that the bound was reached. *)

From Stdlib Require Import ZArith Lia ZifyBool Bool List Ascii String.
From stdpp Require Import gmap strings.

Local Open Scope Z_scope.

(** ** Integral types of the platform *)

Module platform.

Inductive rank := Short | Int | Long | LongLong.

Record ity := IType { ity_rank : rank; ity_signed : bool }.

Definition width (T : ity) : Z :=
  match ity_rank T with
  | Short => 16
  | Int => 32
  | Long => 64
  | LongLong => 64
  end.

(** [std::numeric_limits<T>::min()], [max()] and [digits]. *)
Definition numeric_limits_min (T : ity) : Z :=
  if ity_signed T then - 2 ^ (width T - 1) else 0.

Definition numeric_limits_max (T : ity) : Z :=
  if ity_signed T then 2 ^ (width T - 1) - 1 else 2 ^ width T - 1.

Definition numeric_limits_digits (T : ity) : Z :=
  if ity_signed T then width T - 1 else width T.

Definition in_range (T : ity) (z : Z) : Prop :=
  numeric_limits_min T <= z <= numeric_limits_max T.

(** [std::size_t] *)
Definition size_t : ity := IType Long false.

Definition int : ity := IType Int true.
Definition long : ity := IType Long true.
Definition long_long : ity := IType LongLong true.
Definition short : ity := IType Short true.
Definition unsigned_int : ity := IType Int false.

End platform.

(** ** Arithmetic of the language *)

Module cxx.
Import platform.

(** Integral promotion: [short] and [unsigned short] become [int]. *)
Definition promote (T : ity) : ity :=
  match ity_rank T with
  | Short => int
  | _ => T
  end.

(** Conversion to [T] ([static_cast<T>]): the value modulo [2^width].
    For a signed [T] and a value out of its range this is the rule of
    C++20, and what the implementations did before it. *)
Definition cast (T : ity) (z : Z) : Z :=
  if ity_signed T
  then (z + 2 ^ (width T - 1)) mod 2 ^ width T - 2 ^ (width T - 1)
  else z mod 2 ^ width T.

(** The value of an arithmetic expression of type [P] whose mathematical
    result is [r]: unsigned arithmetic wraps, signed overflow is
    undefined. *)
Definition eval (P : ity) (r : Z) : option Z :=
  if ity_signed P
  then (if bool_decide (in_range P r) then Some r else None)
  else Some (cast P r).

(** [a + b], [a - b], [a * b], [a / b], [a % b] on operands of type [T],
    computed in the promoted type and converted back to [T]. *)
Definition add (T : ity) (a b : Z) : option Z :=
  cast T <$> eval (promote T) (a + b).

Definition sub (T : ity) (a b : Z) : option Z :=
  cast T <$> eval (promote T) (a - b).

Definition mul (T : ity) (a b : Z) : option Z :=
  cast T <$> eval (promote T) (a * b).

Definition div (T : ity) (a b : Z) : option Z :=
  if b =? 0 then None
  else cast T <$> eval (promote T) (Z.quot a b).

Definition rem (T : ity) (a b : Z) : option Z :=
  if b =? 0 then None
  else match eval (promote T) (Z.quot a b) with
       | Some _ => cast T <$> eval (promote T) (Z.rem a b)
       | None => None
       end.

(** The usual arithmetic conversions of an operand of type [T] meeting a
    [std::size_t]: every modelled [T] has at most the rank and the width
    of [unsigned long], so the operand is converted to it. *)
Definition to_size_t (z : Z) : Z := cast size_t z.

(** Unary minus on an operand of type [T]. *)
Definition neg (T : ity) (a : Z) : option Z :=
  cast T <$> eval (promote T) (- a).

End cxx.

(** ** The standard-library routines the class calls *)

Module std.
Import platform.

Definition code (c : ascii) : Z := Z.of_N (Ascii.N_of_ascii c).

(** [std::isspace] in the classic locale: space and the controls 9 to 13. *)
Definition isspace (c : ascii) : bool :=
  (code c =? 32) || ((9 <=? code c) && (code c <=? 13)).

(** The digit a character stands for, in bases up to 16. *)
Definition digit_value (c : ascii) : option Z :=
  let n := code c in
  if (48 <=? n) && (n <=? 57) then Some (n - 48)
  else if (97 <=? n) && (n <=? 102) then Some (n - 87)
  else if (65 <=? n) && (n <=? 70) then Some (n - 55)
  else None.

Definition digit_in (base : Z) (c : ascii) : option Z :=
  match digit_value c with
  | Some d => if d <? base then Some d else None
  | None => None
  end.

(** The lower-case character of a digit below 16. *)
Definition digit_char (d : Z) : ascii :=
  Ascii.ascii_of_N (Z.to_N (if d <? 10 then 48 + d else 87 + d)).

(** [std::string::find(needle)]: position of the first occurrence, [None]
    for [npos]. *)
Definition find (needle s : string) : option nat := String.index 0 needle s.

Fixpoint str_drop (n : nat) (s : string) : string :=
  match n, s with
  | O, _ => s
  | S n', String _ r => str_drop n' r
  | S _, EmptyString => EmptyString
  end.

Fixpoint str_take (n : nat) (s : string) : string :=
  match n, s with
  | S n', String c r => String c (str_take n' r)
  | _, _ => EmptyString
  end.

(** *** std::bitset<N>(str, pos) *)

Inductive exception := invalid_argument | out_of_range.

Definition is_bit (c : ascii) : bool := (code c =? 48) || (code c =? 49).

Fixpoint all_bits (s : string) : bool :=
  match s with
  | EmptyString => true
  | String c r => is_bit c && all_bits r
  end.

Fixpoint bits_value (s : string) (acc : Z) : Z :=
  match s with
  | EmptyString => acc
  | String c r => bits_value r (2 * acc + (code c - 48))
  end.

(** The constructor throws [out_of_range] when [pos] is past the end of
    [str].  Otherwise it examines the first [N] characters from [pos] on
    (fewer when the string ends before) and throws [invalid_argument]
    when one of them is neither '0' nor '1'; the characters behind them
    are not looked at.  The characters examined initialise the bits, the
    last of them being bit 0.  The result is the bitset as [to_ullong]
    reads it. *)
Definition bitset (N : nat) (str : string) (pos : nat)
  : exception + Z :=
  if (String.length str <? pos)%nat then inl out_of_range
  else
    let body := str_take N (str_drop pos str) in
    if all_bits body then inr (bits_value body 0)
    else inl invalid_argument.

(** *** Formatted extraction of an integer: [stream >> value] *)

Inductive basefield := fmt_dec | fmt_oct | fmt_hex.

Definition base_of (f : basefield) : Z :=
  match f with
  | fmt_dec => 10
  | fmt_oct => 8
  | fmt_hex => 16
  end.

Fixpoint skipws (s : string) : string :=
  match s with
  | EmptyString => EmptyString
  | String c r => if isspace c then skipws r else s
  end.

(** An optional sign: [true] for '-'. *)
Definition read_sign (s : string) : bool * string :=
  match s with
  | String c r =>
      if code c =? 45 then (true, r)
      else if code c =? 43 then (false, r)
      else (false, s)
  | EmptyString => (false, s)
  end.

(** In base 16 a leading "0x" or "0X" is part of the numeral. *)
Definition skip_0x (s : string) : string :=
  match s with
  | String c0 (String c1 r) =>
      if (code c0 =? 48) && ((code c1 =? 120) || (code c1 =? 88))
      then r else s
  | _ => s
  end.

(** Accumulates the digits of the base at the head of [s]; the flag
    tells whether there was one. *)
Fixpoint scan_digits (base : Z) (s : string) (seen : bool) (acc : Z)
  : bool * Z :=
  match s with
  | EmptyString => (seen, acc)
  | String c r =>
      match digit_in base c with
      | Some d => scan_digits base r true (acc * base + d)
      | None => (seen, acc)
      end
  end.

(** The value stored for the magnitude [n] read with sign [neg] (the
    rule since C++11): a value out of the range of [T] stores the nearest
    bound.  On an unsigned type a negated magnitude wraps around, as in
    libstdc++; no property below depends on that case. *)
Definition store (T : ity) (neg : bool) (n : Z) : Z :=
  if ity_signed T then
    if neg
    then (if - numeric_limits_min T <? n then numeric_limits_min T else - n)
    else (if numeric_limits_max T <? n then numeric_limits_max T else n)
  else
    if numeric_limits_max T <? n then numeric_limits_max T
    else if neg then cxx.cast T (- n) else n.

(** [None]: the sentry failed (nothing but white space was left) and
    the target is untouched.  [Some v]: [v] is stored; a field without
    a digit stores zero. *)
Definition istream_extract_int (T : ity) (f : basefield) (buf : string)
  : option Z :=
  match skipws buf with
  | EmptyString => None
  | s0 =>
      let '(neg, s1) := read_sign s0 in
      let s2 := match f with fmt_hex => skip_0x s1 | _ => s1 end in
      let '(seen, n) := scan_digits (base_of f) s2 false 0 in
      Some (if seen then store T neg n else 0)
  end.

(** *** Formatted extraction of a word: [stream >> str] *)

Fixpoint take_word (s : string) : string :=
  match s with
  | EmptyString => EmptyString
  | String c r => if isspace c then EmptyString else String c (take_word r)
  end.

Definition istream_extract_string (buf : string) : option string :=
  match skipws buf with
  | EmptyString => None
  | s0 => Some (take_word s0)
  end.

(** *** Formatted insertion: [std::to_string] and [stream << value] *)

(** The numeral of [n >= 0] in [base], most significant digit first,
    in front of [acc]. *)
Fixpoint render_go (fuel : nat) (base n : Z) (acc : string) : string :=
  let acc' := String (digit_char (n mod base)) acc in
  match fuel with
  | O => acc'
  | S fuel' =>
      if n <? base then acc' else render_go fuel' base (n / base) acc'
  end.

Definition render (base n : Z) : string :=
  render_go (Z.to_nat (Z.log2 n)) base n EmptyString.

Definition to_string (v : Z) : string :=
  if v <? 0 then String "-"%char (render 10 (- v)) else render 10 v.

(** In octal and hexadecimal a signed value is written as the unsigned
    value of the same width. *)
Definition ostream_insert_int (T : ity) (f : basefield) (v : Z) : string :=
  match f with
  | fmt_dec => to_string v
  | _ => render (base_of f) (v mod 2 ^ width T)
  end.

(** What [stream >> str] leaves in the stream after the word. *)
Fixpoint drop_word (s : string) : string :=
  match s with
  | EmptyString => EmptyString
  | String c r => if isspace c then s else drop_word r
  end.

(** *** Character arrays and pointers to them *)

(** The memory of character arrays: the arrays that are alive, by
    location.  A [const char*] is a location. *)
Abbreviation arrays := (gmap positive string) (only parsing).

(** [s.c_str()] for a string [s] that is created here: its characters
    take a location that no live array has. *)
Definition c_str (s : string) (m : arrays) : positive * arrays :=
  let data := fresh (dom m) in (data, <[data := s]> m).

(** The destructor of the string whose array is at [data]. *)
Definition destroy (data : positive) (m : arrays) : arrays := delete data m.

(** Reading the characters a pointer points to, as [strcmp] and
    the constructor of [std::string] from a pointer do: [None] when no live array is there,
    where the behaviour is undefined. *)
Definition read (m : arrays) (p : positive) : option string := m !! p.

(** [strcmp(p, s) == 0] *)
Definition strcmp_is_0 (m : arrays) (p : positive) (s : string)
  : option bool :=
  text ← read m p; Some (bool_decide (text = s)).

End std.

(** ** The class template Integral<T> *)

Module csp.
Import platform.

(** An object holds the one member [m_value]. *)
Record Integral := mkIntegral { m_value : Z }.

(** Objects that are referred to (by [this] or by reference) live in a
    store; a reference is a location of the store. *)
Abbreviation loc := positive (only parsing).
Abbreviation heap := (gmap positive Integral) (only parsing).

(** *** Constructors *)

Definition Integral_default : Integral := mkIntegral 0.

Definition Integral_of_value (value : Z) : Integral := mkIntegral value.

Definition Integral_of_compatible (T : ity) (ct : Z) : Integral :=
  mkIntegral (cxx.cast T ct).

(** [value.find(needle) == 0] *)
Definition found_at_0 (needle value : string) : bool :=
  match std.find needle value with
  | Some O => true
  | _ => false
  end.

(** [Integral(const std::string&)].  The member starts as [T{}]; an
    extraction whose sentry fails leaves it so.  The handler catches
    [invalid_argument] only: any other exception would leave the
    [noexcept] constructor and end the program ([None]). *)
Definition Integral_of_string (T : ity) (value : string) : option Integral :=
  let m_value0 := 0 in
  if found_at_0 "0b" value || found_at_0 "0B" value then
    match std.bitset (Z.to_nat (numeric_limits_digits T)) value 2 with
    | inr bits => Some (mkIntegral (cxx.cast T bits))
    | inl std.invalid_argument => Some (mkIntegral m_value0)
    | inl std.out_of_range => None
    end
  else if found_at_0 "0x" value then
    Some (mkIntegral
            (default m_value0 (std.istream_extract_int T std.fmt_hex value)))
  else if found_at_0 "0" value then
    Some (mkIntegral
            (default m_value0 (std.istream_extract_int T std.fmt_oct value)))
  else
    Some (mkIntegral
            (default m_value0 (std.istream_extract_int T std.fmt_dec value))).

(** *** Arithmetic *)

Definition operator_add (T : ity) (lhs rhs : Integral) : option Integral :=
  mkIntegral <$> cxx.add T (m_value lhs) (m_value rhs).

Definition operator_sub (T : ity) (lhs rhs : Integral) : option Integral :=
  mkIntegral <$> cxx.sub T (m_value lhs) (m_value rhs).

Definition operator_mul (T : ity) (lhs rhs : Integral) : option Integral :=
  mkIntegral <$> cxx.mul T (m_value lhs) (m_value rhs).

Definition operator_div (T : ity) (lhs rhs : Integral) : option Integral :=
  mkIntegral <$> cxx.div T (m_value lhs) (m_value rhs).

Definition operator_mod (T : ity) (lhs rhs : Integral) : option Integral :=
  mkIntegral <$> cxx.rem T (m_value lhs) (m_value rhs).

(** *** Increment and decrement

    The prefix forms return [*this]; the postfix forms return a new
    object, here a fresh location of the store. *)

Definition operator_pre_inc (T : ity) (this : loc) (h : heap)
  : option (loc * heap) :=
  x ← h !! this;
  v ← cxx.add T (m_value x) 1;
  Some (this, <[this := mkIntegral v]> h).

Definition operator_post_inc (T : ity) (this : loc) (h : heap)
  : option (loc * heap) :=
  x ← h !! this;
  v ← cxx.add T (m_value x) 1;
  let h' := <[this := mkIntegral v]> h in
  let produced := fresh (dom h') in
  Some (produced, <[produced := Integral_of_value (m_value x)]> h').

Definition operator_pre_dec (T : ity) (this : loc) (h : heap)
  : option (loc * heap) :=
  x ← h !! this;
  v ← cxx.sub T (m_value x) 1;
  Some (this, <[this := mkIntegral v]> h).

Definition operator_post_dec (T : ity) (this : loc) (h : heap)
  : option (loc * heap) :=
  x ← h !! this;
  v ← cxx.sub T (m_value x) 1;
  let h' := <[this := mkIntegral v]> h in
  let produced := fresh (dom h') in
  Some (produced, <[produced := Integral_of_value (m_value x)]> h').

(** *** Comparisons *)

Definition operator_eq (lhs rhs : Integral) : bool :=
  m_value lhs =? m_value rhs.

Definition operator_ne (lhs rhs : Integral) : bool :=
  negb (operator_eq lhs rhs).

Definition operator_lt (lhs rhs : Integral) : bool :=
  m_value lhs <? m_value rhs.

Definition operator_gt (lhs rhs : Integral) : bool :=
  negb (operator_lt lhs rhs).

Definition operator_le (lhs rhs : Integral) : bool :=
  operator_lt lhs rhs || operator_eq lhs rhs.

Definition operator_ge (lhs rhs : Integral) : bool :=
  negb (operator_le lhs rhs).

(** *** Conversions *)

(** [return s.c_str();] where [s] is a local string or a temporary of
    the function: the pointer is taken while [s] is alive, and [s] is
    destroyed before the caller has the pointer.  The result is the
    pointer and the memory the caller finds. *)
Definition return_c_str (s : string) (m : std.arrays)
  : positive * std.arrays :=
  let '(data, m_alive) := std.c_str s m in
  (data, std.destroy data m_alive).

(** [operator const char*()]: [c_str()] of the temporary
    [std::to_string(m_value)]. *)
Definition operator_c_str (this : Integral) (m : std.arrays)
  : positive * std.arrays :=
  return_c_str (std.to_string (m_value this)) m.

Definition operator_string (this : Integral) : string :=
  std.to_string (m_value this).

Definition operator_T (this : Integral) : Z := m_value this.

(** *** Conversion to a radix *)

(** The first loop of [toRadix]: [value % radix] and [value /= radix]
    are computed in [std::size_t]; the remainder is pushed as an [int]
    and the quotient is converted back to [T]. *)
Fixpoint toRadix_divide (fuel : nat) (T : ity) (radix value : Z)
    (result_stack : list Z) : option (list Z) :=
  match fuel with
  | O => None
  | S fuel' =>
      if value =? 0 then Some result_stack
      else
        toRadix_divide fuel' T radix
          (cxx.cast T (cxx.to_size_t value / radix))
          (cxx.cast int (cxx.to_size_t value mod radix) :: result_stack)
  end.

(** The second loop: the top of the stack is written first. *)
Fixpoint toRadix_emit (result_stack : list Z) (result_buffer : string)
  : string :=
  match result_stack with
  | [] => result_buffer
  | top :: rest =>
      toRadix_emit rest
        (result_buffer +:+ std.ostream_insert_int int std.fmt_dec top)
  end.

(** The loop variables [value] and [result_stack] after [k] iterations
    of the first loop, or when the loop has ended before. *)
Fixpoint toRadix_iterations (k : nat) (T : ity) (radix value : Z)
    (result_stack : list Z) : Z * list Z :=
  match k with
  | O => (value, result_stack)
  | S k' =>
      if value =? 0 then (value, result_stack)
      else
        toRadix_iterations k' T radix
          (cxx.cast T (cxx.to_size_t value / radix))
          (cxx.cast int (cxx.to_size_t value mod radix) :: result_stack)
  end.

(** The body of [toRadix] up to its return statements: the string whose
    [c_str()] is returned, which is the temporary
    [std::to_string(m_value)] for the radix zero and above sixteen and
    the local [result] otherwise.  [fuel] bounds the iterations of the
    division loop, and [None] says that the bound was reached. *)
Definition toRadix_result (fuel : nat) (T : ity) (radix : Z) (this : Integral)
  : option string :=
  if (radix =? 0) || (16 <? radix) then
    Some (std.to_string (m_value this))
  else if radix =? 16 then
    Some (default EmptyString
            (std.istream_extract_string
               (std.ostream_insert_int T std.fmt_hex (m_value this))))
  else if radix =? 8 then
    Some (default EmptyString
            (std.istream_extract_string
               (std.ostream_insert_int T std.fmt_oct (m_value this))))
  else
    result_stack ← toRadix_divide fuel T radix (m_value this) [];
    Some (default EmptyString
            (std.istream_extract_string
               (toRadix_emit result_stack EmptyString))).

(** [toRadix]: both return statements hand out [c_str()] of a string
    that the function owns.  [None]: the call does not return within the
    bound. *)
Definition toRadix (fuel : nat) (T : ity) (radix : Z) (this : Integral)
    (m : std.arrays) : option (positive * std.arrays) :=
  result ← toRadix_result fuel T radix this;
  Some (return_c_str result m).

Definition hex (fuel : nat) (T : ity) (this : Integral) (m : std.arrays)
  : option (positive * std.arrays) :=
  toRadix fuel T 16 this m.

Definition dec (fuel : nat) (T : ity) (this : Integral) (m : std.arrays)
  : option (positive * std.arrays) :=
  toRadix fuel T 10 this m.

Definition oct (fuel : nat) (T : ity) (this : Integral) (m : std.arrays)
  : option (positive * std.arrays) :=
  toRadix fuel T 8 this m.

Definition bin (fuel : nat) (T : ity) (this : Integral) (m : std.arrays)
  : option (positive * std.arrays) :=
  toRadix fuel T 2 this m.

(** *** min and max: a reference to one of the two operands *)

Definition min (h : heap) (lhs rhs : loc) : option loc :=
  a ← h !! lhs;
  b ← h !! rhs;
  Some (if operator_lt a b then lhs else rhs).

Definition max (h : heap) (lhs rhs : loc) : option loc :=
  a ← h !! lhs;
  b ← h !! rhs;
  Some (if operator_gt a b then lhs else rhs).

(** *** Numerical properties *)

Definition odd (this : Integral) : bool := Z.testbit (m_value this) 0.

Definition even (this : Integral) : bool := negb (odd this).

(** *** Copy construction, assignment, negation, bounds, streams *)

(** [Integral(const Integral<T>&)]: the member is initialised with the
    operand converted to [T]. *)
Definition Integral_copy (carbon_copy : Integral) : Integral :=
  mkIntegral (operator_T carbon_copy).

(** [checkAndAssign]: nothing is stored when the operand is the object
    itself; the result is [*this]. *)
Definition checkAndAssign (this carbon_copy : loc) (h : heap)
  : option (loc * heap) :=
  x ← h !! this;
  c ← h !! carbon_copy;
  Some (this,
        if decide (this = carbon_copy) then h
        else <[this := mkIntegral (m_value c)]> h).

Definition operator_assign (this carbon_copy : loc) (h : heap)
  : option (loc * heap) :=
  checkAndAssign this carbon_copy h.

(** [operator =(const CompatibleType ct)]: a temporary is constructed
    from [ct], assigned, and destroyed at the end of the expression. *)
Definition operator_assign_compatible (T : ity) (this : loc) (ct : Z)
    (h : heap) : option (loc * heap) :=
  let temporary := fresh (dom h) in
  '(result, h') ← checkAndAssign this temporary
                    (<[temporary := Integral_of_compatible T ct]> h);
  Some (result, delete temporary h').

(** [operator -()]: the negated member, converted to an object. *)
Definition operator_neg (T : ity) (this : Integral) : option Integral :=
  mkIntegral <$> cxx.neg T (m_value this).

(** The static members [min()] and [max()]. *)
Definition static_min (T : ity) : Z := numeric_limits_min T.

Definition static_max (T : ity) : Z := numeric_limits_max T.

(** [operator >>(std::istream&, Integral<T>&)]: a word is read into a
    string that starts empty, and the object is built from it; the
    result is the new object and what is left in the stream. *)
Definition operator_extract (T : ity) (cin : string)
  : option (Integral * string) :=
  let reciever := default EmptyString (std.istream_extract_string cin) in
  obj ← Integral_of_string T reciever;
  Some (mkIntegral (operator_T obj), std.drop_word (std.skipws cin)).

(** [operator <<(std::ostream&, const Integral<T>&)]: the text the
    stream holds afterwards. *)
Definition operator_insert (T : ity) (cout : string) (obj : Integral)
  : string :=
  cout +:+ std.ostream_insert_int T std.fmt_dec (m_value obj).

(** The user-defined literals for [unsigned short], [unsigned int],
    [unsigned long] and [unsigned long long]. *)
Definition operator_cspius (value : Z) : Integral :=
  Integral_of_compatible (IType Short false) value.

Definition operator_cspiui (value : Z) : Integral :=
  Integral_of_compatible (IType Int false) value.

Definition operator_cspiul (value : Z) : Integral :=
  Integral_of_compatible (IType Long false) value.

Definition operator_cspiull (value : Z) : Integral :=
  Integral_of_value value.

End csp.

(** ** The specification's notions, in its own words *)

Module spec.
Import platform.

(** The value of a digit sequence read most significant digit first. *)
Definition positional (base : Z) (ds : list Z) : Z :=
  fold_left (fun acc d => acc * base + d) ds 0.

(** Prefix parsing: the digits of the base are consumed from the left
    until a character that is not one or the end of the string; the
    digits consumed form the value, and no digit gives zero. *)
Fixpoint leading_digits (base : Z) (s : string) : list Z :=
  match s with
  | EmptyString => []
  | String c r =>
      match std.digit_in base c with
      | Some d => d :: leading_digits base r
      | None => []
      end
  end.

Definition prefix_parse (base : Z) (s : string) : Z :=
  positional base (leading_digits base s).

(** All-or-nothing parsing: the value of the numeral when every
    character is a digit of the base, zero otherwise. *)
Definition all_or_nothing (base : Z) (s : string) : Z :=
  if (length (leading_digits base s) =? String.length s)%nat
  then positional base (leading_digits base s)
  else 0.

(** The dispatch on the prefix, evaluated in order. *)
Definition selected_base (s : string) : Z :=
  if String.prefix "0b" s || String.prefix "0B" s then 2
  else if String.prefix "0x" s then 16
  else if String.prefix "0" s then 8
  else 10.

(** The text after the prefix that selected the base. *)
Definition numeral_part (s : string) : string :=
  if String.prefix "0b" s || String.prefix "0B" s then std.str_drop 2 s
  else if String.prefix "0x" s then std.str_drop 2 s
  else if String.prefix "0" s then std.str_drop 1 s
  else s.




(** The text begins with neither white space nor a sign. *)
Definition plain_start (s : string) : Prop :=
  match s with
  | EmptyString => True
  | String c _ =>
      std.isspace c = false /\ std.code c <> 45 /\ std.code c <> 43
  end.

(** A numeral: at least one character, all of them digits of the base. *)
Definition numeral_value (base : Z) (s : string) : option Z :=
  match s with
  | EmptyString => None
  | _ =>
      if (length (leading_digits base s) =? String.length s)%nat
      then Some (positional base (leading_digits base s))
      else None
  end.

(** A decimal numeral with an optional minus sign. *)
Definition decimal_value (s : string) : option Z :=
  match s with
  | String c r =>
      if std.code c =? 45 then Z.opp <$> numeral_value 10 r
      else numeral_value 10 s
  | EmptyString => None
  end.

(** Repeated division: [value mod radix] is pushed and [value] divided
    by [radix] until it is zero; the stack then holds the digits, the
    most significant on top. *)
Fixpoint repeated_division (fuel : nat) (radix value : Z) (stack : list Z)
  : list Z :=
  match fuel with
  | O => stack
  | S fuel' =>
      if value =? 0 then stack
      else repeated_division fuel' radix (value / radix)
             (value mod radix :: stack)
  end.

Definition radix_digits (radix value : Z) : list Z :=
  repeated_division (S (Z.to_nat (Z.log2 value))) radix value [].

(** The same with the division of the language on a signed operand: the
    quotient is truncated towards zero and the remainder has the sign of
    the value. *)
Fixpoint truncated_division (fuel : nat) (radix value : Z) (stack : list Z)
  : list Z :=
  match fuel with
  | O => stack
  | S fuel' =>
      if value =? 0 then stack
      else truncated_division fuel' radix (Z.quot value radix)
             (Z.rem value radix :: stack)
  end.

(** Popping the stack: each digit is written as a decimal number. *)
Definition digits_text (ds : list Z) : string :=
  fold_right (fun d acc => std.to_string d +:+ acc) EmptyString ds.

(** Every character of the text satisfies [p]. *)
Fixpoint all_chars (p : ascii -> bool) (s : string) : bool :=
  match s with
  | EmptyString => true
  | String c r => p c && all_chars p r
  end.

Definition is_decimal_digit (c : ascii) : bool :=
  (48 <=? std.code c) && (std.code c <=? 57).

(** Every object of the store holds a value of [T]. *)
Definition objects_in_range (T : ity) (h : gmap positive csp.Integral) : Prop :=
  forall l x, h !! l = Some x -> in_range T (csp.m_value x).

End spec.

(** * Properties *)

Import platform.

(** ** Ranges and conversions *)

Lemma width_cases (T : ity) : width T = 16 \/ width T = 32 \/ width T = 64.
Proof. destruct T as [[] ?]; cbn; auto. Qed.

Lemma limits_cases (T : ity) :
  (numeric_limits_min T = - 2 ^ (width T - 1) /\
   numeric_limits_max T = 2 ^ (width T - 1) - 1 /\ ity_signed T = true) \/
  (numeric_limits_min T = 0 /\
   numeric_limits_max T = 2 ^ width T - 1 /\ ity_signed T = false).
Proof.
  unfold numeric_limits_min, numeric_limits_max.
  destruct (ity_signed T); auto.
Qed.

Lemma pow2_width_split (T : ity) : 2 ^ width T = 2 * 2 ^ (width T - 1).
Proof. destruct (width_cases T) as [-> | [-> | ->]]; reflexivity. Qed.

Lemma pow2_width_pos (T : ity) : 0 < 2 ^ (width T - 1).
Proof. destruct (width_cases T) as [-> | [-> | ->]]; reflexivity. Qed.

Lemma max_lt_pow64 (T : ity) : numeric_limits_max T < 2 ^ 64.
Proof. destruct T as [[] []]; reflexivity. Qed.

Lemma min_le_0 (T : ity) : numeric_limits_min T <= 0.
Proof. destruct T as [[] []]; cbn; lia. Qed.

Lemma max_ge_15 (T : ity) : 15 <= numeric_limits_max T.
Proof. destruct T as [[] []]; cbn; lia. Qed.

Lemma cast_in_range (T : ity) (z : Z) : in_range T z -> cxx.cast T z = z.
Proof.
  unfold in_range, cxx.cast. intros Hz.
  pose proof (pow2_width_split T) as Hs. pose proof (pow2_width_pos T) as Hp.
  destruct (limits_cases T) as [(Hmin & Hmax & ->) | (Hmin & Hmax & ->)];
    rewrite Hmin, Hmax in Hz.
  - rewrite Z.mod_small; lia.
  - rewrite Z.mod_small; lia.
Qed.

Lemma in_range_promote (T : ity) (z : Z) :
  in_range T z -> in_range (cxx.promote T) z.
Proof.
  destruct T as [[] []]; unfold in_range; cbn; lia.
Qed.

Lemma eval_in_range (P : ity) (r : Z) : in_range P r -> cxx.eval P r = Some r.
Proof.
  intros Hr. unfold cxx.eval. destruct (ity_signed P).
  - rewrite bool_decide_eq_true_2; auto.
  - rewrite cast_in_range; auto.
Qed.

(** An operation whose mathematical result fits [T] yields that result. *)
Lemma arith_exact (T : ity) (r : Z) :
  in_range T r -> cxx.cast T <$> cxx.eval (cxx.promote T) r = Some r.
Proof.
  intros Hr. rewrite eval_in_range by (apply in_range_promote; exact Hr).
  cbn. rewrite cast_in_range; auto.
Qed.

Lemma rem_in_range (T : ity) (a b : Z) :
  in_range T a -> b <> 0 -> in_range T (Z.rem a b).
Proof.
  unfold in_range. intros Ha Hb.
  pose proof (min_le_0 T). pose proof (max_ge_15 T).
  pose proof (Z.quot_rem' a b) as Hqr.
  destruct (Z.le_gt_cases 0 a) as [Hpos | Hneg].
  - pose proof (Z.mul_quot_le a b Hpos Hb). lia.
  - pose proof (Z.mul_quot_ge a b ltac:(lia) Hb). lia.
Qed.

(** ** Comparison operators *)

(** C1: for all objects [a] and [b], [a != b] is the negation of [a == b],
    [a > b] is the negation of [a < b] (so it holds exactly when the value
    of [a] is at least that of [b], in particular when the two are equal),
    [a <= b] is [a < b || a == b], [a >= b] is the negation of [a <= b],
    and [a > a] is true. *)
Theorem comparison_operators (a b : csp.Integral) :
  csp.operator_ne a b = negb (csp.operator_eq a b) /\
  csp.operator_gt a b = negb (csp.operator_lt a b) /\
  csp.operator_gt a b = (csp.m_value b <=? csp.m_value a) /\
  implb (csp.operator_eq a b) (csp.operator_gt a b) = true /\
  csp.operator_le a b = (csp.operator_lt a b || csp.operator_eq a b) /\
  csp.operator_ge a b = negb (csp.operator_le a b) /\
  csp.operator_gt a a = true.
Proof.
  unfold csp.operator_ne, csp.operator_ge, csp.operator_le, csp.operator_gt,
    csp.operator_lt, csp.operator_eq.
  repeat split.
  - destruct (Z.ltb_spec (csp.m_value a) (csp.m_value b));
      destruct (Z.leb_spec (csp.m_value b) (csp.m_value a)); cbn; auto; lia.
  - destruct (Z.eqb_spec (csp.m_value a) (csp.m_value b)) as [-> | _]; cbn; auto.
    rewrite Z.ltb_irrefl. reflexivity.
  - rewrite Z.ltb_irrefl. reflexivity.
Qed.

(** ** Arithmetic operators *)

(** C8: for operands in the range of [T] whose mathematical result is in
    the range of [T] too, the sum, difference and product of two objects
    hold the sum, difference and product of their values; with a divisor
    other than zero and a quotient in range, the quotient and the
    remainder hold the quotient truncated towards zero and its
    remainder. *)
Theorem arithmetic_agrees (T : ity) (a b : csp.Integral) :
  in_range T (csp.m_value a) -> in_range T (csp.m_value b) ->
  (in_range T (csp.m_value a + csp.m_value b) ->
   csp.operator_T <$> csp.operator_add T a b
   = Some (csp.m_value a + csp.m_value b)) /\
  (in_range T (csp.m_value a - csp.m_value b) ->
   csp.operator_T <$> csp.operator_sub T a b
   = Some (csp.m_value a - csp.m_value b)) /\
  (in_range T (csp.m_value a * csp.m_value b) ->
   csp.operator_T <$> csp.operator_mul T a b
   = Some (csp.m_value a * csp.m_value b)) /\
  (csp.m_value b <> 0 -> in_range T (Z.quot (csp.m_value a) (csp.m_value b)) ->
   csp.operator_T <$> csp.operator_div T a b
   = Some (Z.quot (csp.m_value a) (csp.m_value b))) /\
  (csp.m_value b <> 0 -> in_range T (Z.quot (csp.m_value a) (csp.m_value b)) ->
   csp.operator_T <$> csp.operator_mod T a b
   = Some (Z.rem (csp.m_value a) (csp.m_value b))).
Proof.
  intros Ha Hb.
  unfold csp.operator_add, csp.operator_sub, csp.operator_mul,
    csp.operator_div, csp.operator_mod, cxx.add, cxx.sub, cxx.mul,
    cxx.div, cxx.rem.
  repeat split.
  - intros Hr. rewrite arith_exact by exact Hr. reflexivity.
  - intros Hr. rewrite arith_exact by exact Hr. reflexivity.
  - intros Hr. rewrite arith_exact by exact Hr. reflexivity.
  - intros Hz Hr. apply Z.eqb_neq in Hz. rewrite Hz.
    rewrite arith_exact by exact Hr. reflexivity.
  - intros Hz Hr. pose proof Hz as Hz'. apply Z.eqb_neq in Hz'. rewrite Hz'.
    rewrite eval_in_range by (apply in_range_promote; exact Hr).
    rewrite arith_exact by (apply rem_in_range; assumption). reflexivity.
Qed.

Ltac range_by_computation :=
  unfold in_range; vm_compute; split; intros Hcmp; discriminate Hcmp.

Ltac side_by_computation :=
  first [ lia | cbn; lia | reflexivity | range_by_computation ].

Lemma arithmetic_agrees_witness :
  csp.operator_T <$> csp.operator_add int (csp.mkIntegral 7) (csp.mkIntegral 2)
  = Some 9 /\
  csp.operator_T <$> csp.operator_sub int (csp.mkIntegral 7) (csp.mkIntegral 2)
  = Some 5 /\
  csp.operator_T <$> csp.operator_mul int (csp.mkIntegral 7) (csp.mkIntegral 2)
  = Some 14 /\
  csp.operator_T <$> csp.operator_div int (csp.mkIntegral 7) (csp.mkIntegral 2)
  = Some 3 /\
  csp.operator_T <$> csp.operator_mod int (csp.mkIntegral 7) (csp.mkIntegral 2)
  = Some 1.
Proof.
  destruct (arithmetic_agrees int (csp.mkIntegral 7) (csp.mkIntegral 2))
    as (Hadd & Hsub & Hmul & Hdiv & Hmod); try range_by_computation.
  split; [apply Hadd; range_by_computation |].
  split; [apply Hsub; range_by_computation |].
  split; [apply Hmul; range_by_computation |].
  split; [apply Hdiv; [cbn; lia | range_by_computation] |].
  apply Hmod; [cbn; lia | range_by_computation].
Defined.

(** ** min and max *)

(** C6: [min] and [max] return a reference to one of their two operands
    and create no object: [min] returns the right operand when
    [lhs < rhs] is false (a tie included) and the left one otherwise;
    [max] returns the left operand when [lhs > rhs] holds under the
    derived [>] (a tie included) and the right one otherwise. *)
Theorem min_max_select (h : gmap positive csp.Integral) (lhs rhs : positive)
    (a b : csp.Integral) :
  h !! lhs = Some a -> h !! rhs = Some b ->
  exists lesser larger,
    csp.min h lhs rhs = Some lesser /\ csp.max h lhs rhs = Some larger /\
    (lesser = lhs \/ lesser = rhs) /\ (larger = lhs \/ larger = rhs) /\
    (csp.operator_lt a b = false -> lesser = rhs) /\
    (csp.operator_lt a b = true -> lesser = lhs) /\
    (csp.operator_gt a b = true -> larger = lhs) /\
    (csp.operator_gt a b = false -> larger = rhs) /\
    (csp.m_value a = csp.m_value b -> lesser = rhs /\ larger = lhs) /\
    (csp.m_value a < csp.m_value b -> lesser = lhs /\ larger = rhs) /\
    (csp.m_value b < csp.m_value a -> lesser = rhs /\ larger = lhs).
Proof.
  intros Ha Hb. unfold csp.min, csp.max. rewrite Ha, Hb. cbn.
  unfold csp.operator_gt, csp.operator_lt.
  eexists _, _. split; [reflexivity |]. split; [reflexivity |].
  destruct (Z.ltb_spec (csp.m_value a) (csp.m_value b)); cbn;
    repeat split; auto; intros; try discriminate; try lia.
Qed.

Lemma min_max_select_witness :
  let h : gmap positive csp.Integral :=
    <[2%positive := csp.mkIntegral 24]> {[1%positive := csp.mkIntegral 12]} in
  exists lesser larger,
    csp.min h 1 2 = Some lesser /\ csp.max h 1 2 = Some larger /\
    csp.m_value <$> h !! lesser = Some 12 /\
    csp.m_value <$> h !! larger = Some 24.
Proof.
  intros h.
  destruct (min_max_select h 1 2 (csp.mkIntegral 12) (csp.mkIntegral 24))
    as (lesser & larger & Hmin & Hmax & _ & _ & _ & _ & _ & _ & _ & Hlt & _);
    [reflexivity | reflexivity |].
  destruct Hlt as [-> ->]; [cbn; lia |].
  exists 1%positive, 2%positive. repeat split; assumption.
Defined.

(** ** Increment and decrement *)

(** C7: when the value plus (minus) one is in the range of [T], the prefix
    increment (decrement) stores it in the object and returns the object
    itself, so that the result read through the returned reference is the
    new value; the postfix form stores it too, but returns a new object,
    distinct from every object of the store, holding the value from before
    the mutation. *)
Theorem increment_decrement (T : ity) (h : gmap positive csp.Integral)
    (this : positive) (x : csp.Integral) :
  h !! this = Some x -> in_range T (csp.m_value x) ->
  (in_range T (csp.m_value x + 1) ->
   (exists h',
       csp.operator_pre_inc T this h = Some (this, h') /\
       h' !! this = Some (csp.mkIntegral (csp.m_value x + 1)) /\
       forall l, l <> this -> h' !! l = h !! l) /\
   (exists produced h',
       csp.operator_post_inc T this h = Some (produced, h') /\
       produced <> this /\ h !! produced = None /\
       h' !! produced = Some (csp.mkIntegral (csp.m_value x)) /\
       h' !! this = Some (csp.mkIntegral (csp.m_value x + 1)) /\
       forall l, l <> this -> l <> produced -> h' !! l = h !! l)) /\
  (in_range T (csp.m_value x - 1) ->
   (exists h',
       csp.operator_pre_dec T this h = Some (this, h') /\
       h' !! this = Some (csp.mkIntegral (csp.m_value x - 1)) /\
       forall l, l <> this -> h' !! l = h !! l) /\
   (exists produced h',
       csp.operator_post_dec T this h = Some (produced, h') /\
       produced <> this /\ h !! produced = None /\
       h' !! produced = Some (csp.mkIntegral (csp.m_value x)) /\
       h' !! this = Some (csp.mkIntegral (csp.m_value x - 1)) /\
       forall l, l <> this -> l <> produced -> h' !! l = h !! l)).
Proof.
  intros Hx Hr.
  assert (Hfresh : forall v : csp.Integral,
             let p := fresh (dom (<[this := v]> h)) in
             p <> this /\ h !! p = None).
  { intros v p.
    pose proof (is_fresh (dom (<[this := v]> h))) as Hp. fold p in Hp.
    rewrite dom_insert_L in Hp. split.
    - intros ->. apply Hp. set_solver.
    - apply not_elem_of_dom. set_solver. }
  split; intros Hr'.
  - unfold csp.operator_pre_inc, csp.operator_post_inc, cxx.add.
    rewrite Hx. cbn. rewrite arith_exact by exact Hr'. cbn. split.
    + eexists. split; [reflexivity |]. split.
      * apply lookup_insert_eq.
      * intros l Hl. apply lookup_insert_ne. congruence.
    + destruct (Hfresh (csp.mkIntegral (csp.m_value x + 1))) as [Hne Hnone].
      eexists _, _. split; [reflexivity |].
      split; [exact Hne |]. split; [exact Hnone |].
      split; [apply lookup_insert_eq |]. split.
      * rewrite lookup_insert_ne by exact Hne. apply lookup_insert_eq.
      * intros l Hl1 Hl2. rewrite !lookup_insert_ne by congruence. reflexivity.
  - unfold csp.operator_pre_dec, csp.operator_post_dec, cxx.sub.
    rewrite Hx. cbn. rewrite arith_exact by exact Hr'. cbn. split.
    + eexists. split; [reflexivity |]. split.
      * apply lookup_insert_eq.
      * intros l Hl. apply lookup_insert_ne. congruence.
    + destruct (Hfresh (csp.mkIntegral (csp.m_value x - 1))) as [Hne Hnone].
      eexists _, _. split; [reflexivity |].
      split; [exact Hne |]. split; [exact Hnone |].
      split; [apply lookup_insert_eq |]. split.
      * rewrite lookup_insert_ne by exact Hne. apply lookup_insert_eq.
      * intros l Hl1 Hl2. rewrite !lookup_insert_ne by congruence. reflexivity.
Qed.

Lemma increment_decrement_witness :
  let h : gmap positive csp.Integral := {[1%positive := csp.mkIntegral 1]} in
  (exists h', csp.operator_pre_inc long 1 h = Some (1%positive, h') /\
              h' !! 1%positive = Some (csp.mkIntegral 2)) /\
  (exists produced h',
      csp.operator_post_inc long 1 h = Some (produced, h') /\
      produced <> 1%positive /\
      h' !! produced = Some (csp.mkIntegral 1) /\
      h' !! 1%positive = Some (csp.mkIntegral 2)) /\
  (exists h', csp.operator_pre_dec long 1 h = Some (1%positive, h') /\
              h' !! 1%positive = Some (csp.mkIntegral 0)) /\
  (exists produced h',
      csp.operator_post_dec long 1 h = Some (produced, h') /\
      produced <> 1%positive /\
      h' !! produced = Some (csp.mkIntegral 1) /\
      h' !! 1%positive = Some (csp.mkIntegral 0)).
Proof.
  intros h.
  destruct (increment_decrement long h 1 (csp.mkIntegral 1))
    as [Hinc Hdec]; [reflexivity | range_by_computation |].
  destruct Hinc as [(h1 & E1 & L1 & _) (p2 & h2 & E2 & N2 & _ & P2 & L2 & _)];
    [range_by_computation |].
  destruct Hdec as [(h3 & E3 & L3 & _) (p4 & h4 & E4 & N4 & _ & P4 & L4 & _)];
    [range_by_computation |].
  split; [exists h1; split; assumption |].
  split; [exists p2, h2; repeat split; assumption |].
  split; [exists h3; split; assumption |].
  exists p4, h4; repeat split; assumption.
Defined.

(** ** Strings and characters *)

Lemma str_app_cons (c : ascii) (s t : string) :
  String c s +:+ t = String c (s +:+ t).
Proof. reflexivity. Qed.

Lemma str_app_nil_r (s : string) : s +:+ EmptyString = s.
Proof.
  induction s as [| c s IH]; [reflexivity |].
  rewrite str_app_cons, IH. reflexivity.
Qed.

Lemma str_app_assoc (s t u : string) : (s +:+ t) +:+ u = s +:+ (t +:+ u).
Proof.
  induction s as [| c s IH]; [reflexivity |].
  rewrite !str_app_cons, IH. reflexivity.
Qed.

Lemma all_chars_app (p : ascii -> bool) (s t : string) :
  spec.all_chars p (s +:+ t) = spec.all_chars p s && spec.all_chars p t.
Proof.
  induction s as [| c s IH]; [reflexivity |].
  rewrite str_app_cons. cbn. rewrite IH. apply andb_assoc.
Qed.

Lemma small_digit_cases (d : Z) :
  0 <= d < 16 ->
  d = 0 \/ d = 1 \/ d = 2 \/ d = 3 \/ d = 4 \/ d = 5 \/ d = 6 \/ d = 7 \/
  d = 8 \/ d = 9 \/ d = 10 \/ d = 11 \/ d = 12 \/ d = 13 \/ d = 14 \/ d = 15.
Proof. lia. Qed.

Ltac each_small_digit H :=
  apply small_digit_cases in H;
  repeat (destruct H as [-> | H]); try subst.

Lemma digit_value_char (d : Z) :
  0 <= d < 16 -> std.digit_value (std.digit_char d) = Some d.
Proof. intros H. each_small_digit H; reflexivity. Qed.

Lemma digit_in_char (base d : Z) :
  0 <= d < base -> base <= 16 -> std.digit_in base (std.digit_char d) = Some d.
Proof.
  intros Hd Hb. unfold std.digit_in.
  rewrite digit_value_char by lia.
  destruct (Z.ltb_spec d base); [reflexivity | lia].
Qed.

Lemma digit_char_not_space (d : Z) :
  0 <= d < 16 -> std.isspace (std.digit_char d) = false.
Proof. intros H. each_small_digit H; reflexivity. Qed.

Lemma digit_char_decimal (d : Z) :
  0 <= d < 10 -> spec.is_decimal_digit (std.digit_char d) = true.
Proof.
  intros H. assert (H' : 0 <= d < 16) by lia.
  each_small_digit H'; try reflexivity; lia.
Qed.

Lemma decimal_digit_not_space (c : ascii) :
  spec.is_decimal_digit c = true -> std.isspace c = false.
Proof.
  unfold spec.is_decimal_digit, std.isspace. intros H.
  apply andb_true_iff in H as [H1 H2].
  apply Z.leb_le in H1. apply Z.leb_le in H2.
  destruct (Z.eqb_spec (std.code c) 32); [lia |].
  destruct (Z.leb_spec 9 (std.code c)); cbn; [| reflexivity].
  apply Z.leb_gt. lia.
Qed.

(** ** Writing numbers *)

(** The characters written by [render_go] all come from [digit_char]. *)
Lemma render_go_all_chars (p : ascii -> bool) (base : Z) :
  0 < base ->
  (forall d, 0 <= d < base -> p (std.digit_char d) = true) ->
  forall fuel n acc,
    spec.all_chars p acc = true ->
    spec.all_chars p (std.render_go fuel base n acc) = true.
Proof.
  intros Hb Hp. induction fuel as [| fuel IH]; intros n acc Hacc; cbn.
  - rewrite Hacc, Hp by (apply Z.mod_pos_bound; lia). reflexivity.
  - destruct (n <? base).
    + cbn. rewrite Hacc, Hp by (apply Z.mod_pos_bound; lia). reflexivity.
    + apply IH. cbn.
      rewrite Hacc, Hp by (apply Z.mod_pos_bound; lia). reflexivity.
Qed.

(** Reading back what [render_go] wrote gives the number. *)
Lemma render_go_value (base : Z) :
  2 <= base <= 16 ->
  forall fuel n acc,
    0 <= n < 2 ^ (Z.of_nat fuel + 1) ->
    fold_left (fun a d => a * base + d)
      (spec.leading_digits base (std.render_go fuel base n acc)) 0
    = fold_left (fun a d => a * base + d) (spec.leading_digits base acc) n.
Proof.
  intros Hb. induction fuel as [| fuel IH]; intros n acc Hn.
  - cbn [std.render_go spec.leading_digits]. change (2 ^ (Z.of_nat 0 + 1)) with 2 in Hn.
    rewrite Z.mod_small by lia. rewrite digit_in_char by lia.
    cbn. reflexivity.
  - cbn [std.render_go]. destruct (Z.ltb_spec n base) as [Hlt | Hge].
    + cbn [spec.leading_digits].
      rewrite Z.mod_small by lia. rewrite digit_in_char by lia.
      cbn. reflexivity.
    + rewrite IH.
      * cbn [spec.leading_digits].
        rewrite digit_in_char by (pose proof (Z.mod_pos_bound n base); lia).
        cbn [fold_left]. f_equal.
        pose proof (Z.div_mod n base). lia.
      * split; [apply Z.div_pos; lia |].
        replace (Z.of_nat (S fuel) + 1) with (Z.succ (Z.of_nat fuel + 1)) in Hn
          by lia.
        rewrite Z.pow_succ_r in Hn by lia.
        apply Z.div_lt_upper_bound; [lia |].
        assert (0 < 2 ^ (Z.of_nat fuel + 1)) by (apply Z.pow_pos_nonneg; lia).
        nia.
Qed.

Lemma log2_fuel_bound (n : Z) :
  0 <= n -> n < 2 ^ (Z.of_nat (Z.to_nat (Z.log2 n)) + 1).
Proof.
  intros Hn. rewrite Z2Nat.id by apply Z.log2_nonneg.
  destruct (Z.eq_dec n 0) as [-> | Hnz]; [reflexivity |].
  pose proof (Z.log2_spec n ltac:(lia)). 
  replace (Z.log2 n + 1) with (Z.succ (Z.log2 n)) by lia. lia.
Qed.

Lemma all_digits_length (base : Z) (s : string) :
  spec.all_chars (fun c => bool_decide (is_Some (std.digit_in base c))) s = true ->
  length (spec.leading_digits base s) = String.length s.
Proof.
  induction s as [| c s IH]; cbn; [reflexivity |].
  intros H. apply andb_true_iff in H as [Hc Hs].
  apply bool_decide_eq_true in Hc. destruct Hc as [d Hd]. rewrite Hd.
  cbn. f_equal. apply IH, Hs.
Qed.

Lemma render_nonempty (base n : Z) : std.render base n <> EmptyString.
Proof.
  unfold std.render. generalize (Z.to_nat (Z.log2 n)) as fuel.
  assert (H : forall fuel m acc, acc <> EmptyString ->
                std.render_go fuel base m acc <> EmptyString).
  { induction fuel as [| fuel IH]; intros m acc Hacc; cbn; [discriminate |].
    destruct (m <? base); [discriminate | apply IH; discriminate]. }
  intros [| fuel]; cbn; [discriminate |].
  destruct (n <? base); [discriminate | apply H; discriminate].
Qed.

(** [render] writes a numeral of the base whose value is the number. *)
Lemma render_numeral (base n : Z) :
  2 <= base <= 16 -> 0 <= n ->
  spec.numeral_value base (std.render base n) = Some n.
Proof.
  intros Hb Hn. unfold spec.numeral_value.
  pose proof (render_nonempty base n) as Hne.
  destruct (std.render base n) as [| c r] eqn:E; [congruence |].
  rewrite <- E. clear Hne.
  rewrite all_digits_length.
  - rewrite Nat.eqb_refl. f_equal. unfold spec.positional, std.render.
    rewrite render_go_value by (auto using log2_fuel_bound). reflexivity.
  - unfold std.render. apply render_go_all_chars; [lia | | reflexivity].
    intros d Hd. rewrite digit_in_char by lia.
    apply bool_decide_eq_true. eauto.
Qed.

(** [std::to_string] writes the decimal numeral of the value. *)
Lemma to_string_decimal (v : Z) : spec.decimal_value (std.to_string v) = Some v.
Proof.
  unfold std.to_string. destruct (Z.ltb_spec v 0) as [Hneg | Hpos].
  - cbn. rewrite render_numeral by lia. cbn. f_equal. lia.
  - unfold spec.decimal_value.
    pose proof (render_nonempty 10 v) as Hne.
    pose proof (render_numeral 10 v ltac:(lia) Hpos) as Hv.
    destruct (std.render 10 v) as [| c r] eqn:E; [congruence |].
    destruct (Z.eqb_spec (std.code c) 45) as [Hc | _]; [| exact Hv].
    exfalso. unfold spec.numeral_value in Hv. cbn in Hv.
    unfold std.digit_in, std.digit_value in Hv. rewrite Hc in Hv.
    cbn in Hv. discriminate.
Qed.

Lemma to_string_nonneg_digits (d : Z) :
  0 <= d -> spec.all_chars spec.is_decimal_digit (std.to_string d) = true.
Proof.
  intros Hd. unfold std.to_string.
  destruct (Z.ltb_spec d 0); [lia |].
  unfold std.render. apply render_go_all_chars; [lia | | reflexivity].
  apply digit_char_decimal.
Qed.

Lemma digits_text_decimal (ds : list Z) :
  Forall (fun d => 0 <= d) ds ->
  spec.all_chars spec.is_decimal_digit (spec.digits_text ds) = true.
Proof.
  induction 1 as [| d ds Hd _ IH]; [reflexivity |].
  cbn [spec.digits_text fold_right].
  rewrite all_chars_app, to_string_nonneg_digits by exact Hd. exact IH.
Qed.

Lemma to_string_two_chars (d : Z) :
  10 <= d < 16 ->
  std.to_string d
  = String "1"%char (String (std.digit_char (d - 10)) EmptyString).
Proof.
  intros H. assert (H' : 0 <= d < 16) by lia.
  each_small_digit H'; try reflexivity; lia.
Qed.

(** ** Reading a word back from the buffer *)

Lemma take_word_no_space (s : string) :
  spec.all_chars spec.is_decimal_digit s = true -> std.take_word s = s.
Proof.
  induction s as [| c s IH]; [reflexivity |].
  cbn. intros H. apply andb_true_iff in H as [Hc Hs].
  rewrite (decimal_digit_not_space c Hc). f_equal. apply IH, Hs.
Qed.

Lemma extract_string_digits (s : string) :
  spec.all_chars spec.is_decimal_digit s = true ->
  default EmptyString (std.istream_extract_string s) = s.
Proof.
  intros H. unfold std.istream_extract_string.
  destruct s as [| c s]; [reflexivity |].
  pose proof H as H'. cbn in H'. apply andb_true_iff in H' as [Hc _].
  cbn [std.skipws]. rewrite (decimal_digit_not_space c Hc).
  cbn [default]. apply take_word_no_space, H.
Qed.

(** ** The loops of toRadix *)

Lemma toRadix_emit_text (result_stack : list Z) (result_buffer : string) :
  csp.toRadix_emit result_stack result_buffer
  = result_buffer +:+ spec.digits_text result_stack.
Proof.
  revert result_buffer.
  induction result_stack as [| top rest IH]; intros result_buffer.
  - cbn. symmetry. apply str_app_nil_r.
  - cbn [csp.toRadix_emit spec.digits_text fold_right]. rewrite IH.
    apply str_app_assoc.
Qed.

Lemma in_range_size_t (T : ity) (v : Z) :
  in_range T v -> 0 <= v -> cxx.to_size_t v = v.
Proof.
  intros Hv Hpos. unfold cxx.to_size_t. apply cast_in_range.
  pose proof (max_lt_pow64 T). unfold in_range in *.
  change (numeric_limits_min size_t) with 0.
  change (numeric_limits_max size_t) with (2 ^ 64 - 1). lia.
Qed.

Lemma remainder_is_int (u radix : Z) :
  2 <= radix <= 15 ->
  cxx.cast int (u mod radix) = u mod radix /\ 0 <= u mod radix < radix.
Proof.
  intros Hr. pose proof (Z.mod_pos_bound u radix ltac:(lia)) as Hm.
  split; [| exact Hm]. apply cast_in_range. unfold in_range.
  change (numeric_limits_min int) with (- 2147483648).
  change (numeric_limits_max int) with 2147483647. lia.
Qed.

Section DivisionLoop.

Variable T : ity.
Variable radix : Z.
Hypothesis Hr : 2 <= radix <= 15.

(** On a value that is not negative the loop of the code performs the
    repeated division of the specification, and ends. *)
Lemma toRadix_divide_nonneg (k fuel : nat) (value : Z) (result_stack : list Z) :
  0 <= value < 2 ^ Z.of_nat k -> in_range T value -> (k < fuel)%nat ->
  csp.toRadix_divide fuel T radix value result_stack
  = Some (spec.repeated_division k radix value result_stack).
Proof.
  revert fuel value result_stack.
  induction k as [| k IH]; intros fuel value st Hv HT Hk.
  - destruct fuel as [| fuel]; [lia |]. change (2 ^ Z.of_nat 0) with 1 in Hv.
    assert (value = 0) as -> by lia. reflexivity.
  - destruct fuel as [| fuel]; [lia |].
    cbn [csp.toRadix_divide spec.repeated_division].
    destruct (Z.eqb_spec value 0) as [_ | Hnz]; [reflexivity |].
    rewrite (in_range_size_t T value HT) by lia.
    destruct (remainder_is_int value radix Hr) as [-> _].
    assert (Hq : 0 <= value / radix <= value).
    { split; [apply Z.div_pos; lia |].
      apply Z.div_le_upper_bound; [lia |]. nia. }
    rewrite (cast_in_range T (value / radix))
      by (pose proof (min_le_0 T); unfold in_range in *; lia).
    apply IH; [| pose proof (min_le_0 T); unfold in_range in *; lia | lia].
    split; [lia |].
    rewrite Nat2Z.inj_succ, Z.pow_succ_r in Hv by lia.
    apply Z.div_lt_upper_bound; [lia |].
    assert (0 < 2 ^ Z.of_nat k) by (apply Z.pow_pos_nonneg; lia). nia.
Qed.

(** Whatever the value, every remainder pushed lies between zero and the
    radix: the division is one of [std::size_t]. *)
Lemma toRadix_divide_stack (fuel : nat) (value : Z)
    (result_stack stack : list Z) :
  Forall (fun d => 0 <= d < radix) result_stack ->
  csp.toRadix_divide fuel T radix value result_stack = Some stack ->
  Forall (fun d => 0 <= d < radix) stack.
Proof.
  revert value result_stack stack.
  induction fuel as [| fuel IH]; intros value st stack Hst E.
  - discriminate.
  - cbn [csp.toRadix_divide] in E. destruct (value =? 0).
    + injection E as <-. exact Hst.
    + apply IH in E; [exact E |]. constructor; [| exact Hst].
      destruct (remainder_is_int (cxx.to_size_t value) radix Hr) as [-> H].
      exact H.
Qed.

End DivisionLoop.

Lemma repeated_division_step (k : nat) (radix value : Z) (stack : list Z) :
  spec.repeated_division (S k) radix value stack
  = if value =? 0 then stack
    else spec.repeated_division k radix (value / radix)
           (value mod radix :: stack).
Proof. reflexivity. Qed.

Lemma repeated_division_stack (radix : Z) :
  2 <= radix ->
  forall (k : nat) (value : Z) (stack : list Z),
    Forall (fun d => 0 <= d < radix) stack ->
    Forall (fun d => 0 <= d < radix) (spec.repeated_division k radix value stack).
Proof.
  intros Hr. induction k as [| k IH]; intros value stack Hst; [exact Hst |].
  cbn. destruct (value =? 0); [exact Hst |].
  apply IH. constructor; [apply Z.mod_pos_bound; lia | exact Hst].
Qed.

Lemma repeated_division_value (radix : Z) :
  2 <= radix ->
  forall (k : nat) (value : Z) (stack : list Z),
    0 <= value < 2 ^ Z.of_nat k ->
    fold_left (fun a d => a * radix + d)
      (spec.repeated_division k radix value stack) 0
    = fold_left (fun a d => a * radix + d) stack value.
Proof.
  intros Hr. induction k as [| k IH]; intros value stack Hv.
  - change (2 ^ Z.of_nat 0) with 1 in Hv. assert (value = 0) as -> by lia.
    reflexivity.
  - cbn [spec.repeated_division].
    destruct (Z.eqb_spec value 0) as [-> | Hnz]; [reflexivity |].
    rewrite IH.
    + cbn [fold_left]. f_equal. pose proof (Z.div_mod value radix). lia.
    + split; [apply Z.div_pos; lia |].
      rewrite Nat2Z.inj_succ, Z.pow_succ_r in Hv by lia.
      apply Z.div_lt_upper_bound; [lia |].
      assert (0 < 2 ^ Z.of_nat k) by (apply Z.pow_pos_nonneg; lia). nia.
Qed.

Lemma radix_fuel_bound (value : Z) :
  0 <= value -> value < 2 ^ Z.of_nat (S (Z.to_nat (Z.log2 value))).
Proof.
  intros Hv. pose proof (log2_fuel_bound value Hv) as H.
  rewrite Nat2Z.inj_succ. replace (Z.succ (Z.of_nat (Z.to_nat (Z.log2 value))))
    with (Z.of_nat (Z.to_nat (Z.log2 value)) + 1) by lia. exact H.
Qed.

Lemma radix_fuel_small (value : Z) :
  0 <= value < 2 ^ 64 -> (S (Z.to_nat (Z.log2 value)) < 65)%nat.
Proof.
  intros Hv. destruct (Z.eq_dec value 0) as [-> | Hnz]; [cbn; lia |].
  assert (Z.log2 value < 64) by (apply Z.log2_lt_pow2; lia).
  pose proof (Z.log2_nonneg value). lia.
Qed.

Lemma radix_digits_bounds (radix value : Z) :
  2 <= radix -> Forall (fun d => 0 <= d < radix) (spec.radix_digits radix value).
Proof.
  intros Hr. unfold spec.radix_digits.
  apply repeated_division_stack; [exact Hr | constructor].
Qed.

Lemma radix_digits_value (radix value : Z) :
  2 <= radix -> 0 <= value ->
  spec.positional radix (spec.radix_digits radix value) = value.
Proof.
  intros Hr Hv. unfold spec.positional, spec.radix_digits.
  rewrite repeated_division_value; [reflexivity | exact Hr |].
  split; [exact Hv | apply radix_fuel_bound, Hv].
Qed.

Lemma toRadix_other_branch (fuel : nat) (T : ity) (radix : Z)
    (this : csp.Integral) :
  2 <= radix <= 15 -> radix <> 8 ->
  csp.toRadix_result fuel T radix this
  = result_stack ← csp.toRadix_divide fuel T radix (csp.m_value this) [];
    Some (default EmptyString
            (std.istream_extract_string
               (csp.toRadix_emit result_stack EmptyString))).
Proof.
  intros Hr H8. unfold csp.toRadix_result.
  destruct (Z.eqb_spec radix 0); [lia |].
  destruct (Z.ltb_spec 16 radix); [lia |].
  destruct (Z.eqb_spec radix 16); [lia |].
  destruct (Z.eqb_spec radix 8); [lia |]. reflexivity.
Qed.

Lemma toRadix_of_stack (stack : list Z) (radix : Z) :
  Forall (fun d => 0 <= d < radix) stack ->
  default EmptyString
    (std.istream_extract_string (csp.toRadix_emit stack EmptyString))
  = spec.digits_text stack.
Proof.
  intros Hst. rewrite toRadix_emit_text.
  change (EmptyString +:+ spec.digits_text stack) with (spec.digits_text stack).
  apply extract_string_digits, digits_text_decimal.
  eapply Forall_impl; [exact Hst |]. cbn. intros d Hd. lia.
Qed.

(** [toRadix] on a value that is not negative. *)
Lemma toRadix_nonneg (fuel : nat) (T : ity) (radix : Z) (this : csp.Integral) :
  2 <= radix <= 15 -> radix <> 8 ->
  in_range T (csp.m_value this) -> 0 <= csp.m_value this -> (64 < fuel)%nat ->
  csp.toRadix_result fuel T radix this
  = Some (spec.digits_text (spec.radix_digits radix (csp.m_value this))).
Proof.
  intros Hr H8 HT Hv Hf. rewrite toRadix_other_branch by assumption.
  pose proof (max_lt_pow64 T) as Hmax.
  rewrite (toRadix_divide_nonneg T radix Hr
             (S (Z.to_nat (Z.log2 (csp.m_value this))))).
  - cbn [mbind option_bind]. f_equal.
    apply (toRadix_of_stack _ radix), radix_digits_bounds. lia.
  - split; [exact Hv | apply radix_fuel_bound, Hv].
  - exact HT.
  - pose proof (radix_fuel_small (csp.m_value this)).
    unfold in_range in HT. lia.
Qed.

(** ** Negative values in the division loop *)

Lemma to_size_t_negative (T : ity) (v : Z) :
  in_range T v -> v < 0 -> cxx.to_size_t v = v + 2 ^ 64.
Proof.
  intros HT Hv. unfold cxx.to_size_t, cxx.cast. cbn.
  assert (- 2 ^ 63 <= v).
  { unfold in_range in HT. destruct T as [[] []]; cbn in HT; lia. }
  symmetry. apply Z.mod_unique with (q := -1); lia.
Qed.

(** The first iteration on a negative value: the remainder pushed is the
    one of the value plus 2^64. *)
Lemma toRadix_divide_negative_step (fuel : nat) (T : ity) (radix value : Z)
    (result_stack : list Z) :
  in_range T value -> value < 0 -> 2 <= radix <= 15 ->
  csp.toRadix_divide (S fuel) T radix value result_stack
  = csp.toRadix_divide fuel T radix
      (cxx.cast T ((value + 2 ^ 64) / radix))
      ((value + 2 ^ 64) mod radix :: result_stack).
Proof.
  intros HT Hv Hr. cbn [csp.toRadix_divide].
  destruct (Z.eqb_spec value 0) as [Hz | _]; [lia |].
  rewrite (to_size_t_negative T) by assumption.
  destruct (remainder_is_int (value + 2 ^ 64) radix Hr) as [-> _].
  reflexivity.
Qed.

(** A negative value of a 64-bit type is converted as its two's
    complement. *)
Lemma toRadix_negative_64 (fuel : nat) (T : ity) (radix : Z)
    (this : csp.Integral) :
  ity_signed T = true -> width T = 64 ->
  in_range T (csp.m_value this) -> csp.m_value this < 0 ->
  2 <= radix <= 15 -> radix <> 8 -> (64 < fuel)%nat ->
  csp.toRadix_result fuel T radix this
  = Some (spec.digits_text
            (spec.radix_digits radix (csp.m_value this + 2 ^ 64))).
Proof.
  intros Hs Hw HT Hv Hr H8 Hf. rewrite toRadix_other_branch by assumption.
  destruct fuel as [| fuel]; [lia |]. cbn [csp.toRadix_divide].
  destruct (Z.eqb_spec (csp.m_value this) 0) as [Hz | _]; [lia |].
  rewrite (to_size_t_negative T) by assumption.
  set (u := csp.m_value this + 2 ^ 64).
  assert (Hu : 2 ^ 63 <= u < 2 ^ 64).
  { unfold in_range, numeric_limits_min in HT. rewrite Hs, Hw in HT.
    change (64 - 1) with 63 in HT. subst u. lia. }
  assert (Hq : 0 <= u / radix < 2 ^ Z.of_nat 63).
  { split; [apply Z.div_pos; lia |].
    apply Z.div_lt_upper_bound; [lia |].
    change (2 ^ Z.of_nat 63) with (2 ^ 63). change (2 ^ 64) with (2 * 2 ^ 63) in Hu.
    nia. }
  assert (HTq : in_range T (u / radix)).
  { unfold in_range, numeric_limits_min, numeric_limits_max.
    rewrite Hs, Hw. change (64 - 1) with 63.
    change (2 ^ Z.of_nat 63) with (2 ^ 63) in Hq. lia. }
  destruct (remainder_is_int u radix Hr) as [-> Hm].
  rewrite (cast_in_range T (u / radix) HTq).
  rewrite (toRadix_divide_nonneg T radix Hr 63) by (auto; lia).
  cbn [mbind option_bind]. f_equal.
  rewrite (toRadix_of_stack _ radix)
    by (apply repeated_division_stack; [lia |];
        constructor; [exact Hm | constructor]).
  assert (Hlog : Z.log2 u = 63) by (apply Z.log2_unique; lia).
  unfold spec.radix_digits. rewrite Hlog.
  change (S (Z.to_nat 63)) with (S 63).
  rewrite (repeated_division_step 63 radix u).
  destruct (Z.eqb_spec u 0) as [Hz | _]; [lia | reflexivity].
Qed.

(** On [int] the quotient is cut back to 32 bits: from -1 the loop
    reaches -1 again. *)
Lemma toRadix_divide_minus_one (fuel : nat) (result_stack : list Z) :
  csp.toRadix_divide fuel int 2 (-1) result_stack = None.
Proof.
  revert result_stack. induction fuel as [| fuel IH]; intros st; [reflexivity |].
  cbn [csp.toRadix_divide].
  change (-1 =? 0) with false.
  change (cxx.cast int (cxx.to_size_t (-1) / 2)) with (-1).
  apply IH.
Qed.

(** [Integral<int>(-5).toRadix(2)] does not return. *)
Lemma toRadix_int_minus_five (fuel : nat) :
  csp.toRadix_result fuel int 2 (csp.mkIntegral (-5)) = None.
Proof.
  rewrite toRadix_other_branch by lia. cbn [csp.m_value].
  destruct fuel as [| [| [| fuel]]]; try reflexivity.
  change (csp.toRadix_divide (S (S (S fuel))) int 2 (-5) [])
    with (csp.toRadix_divide fuel int 2 (-1) [0; 1; 1]).
  rewrite toRadix_divide_minus_one. reflexivity.
Qed.


(** ** The pointers returned by the class *)

(** A string that a function owns is gone when the function has
    returned: the caller finds the memory as it was before the call, and
    no array is alive where the returned pointer points. *)
Lemma return_c_str_dangling (s : string) (m : gmap positive string) :
  exists p, csp.return_c_str s m = (p, m) /\ std.read m p = None.
Proof.
  exists (fresh (dom m)).
  assert (Hnone : m !! fresh (dom m) = None)
    by (apply not_elem_of_dom, is_fresh).
  split; [| exact Hnone].
  unfold csp.return_c_str, std.c_str, std.destroy.
  rewrite delete_insert_id by exact Hnone. reflexivity.
Qed.

Lemma toRadix_dangling (fuel : nat) (T : ity) (radix : Z)
    (this : csp.Integral) (m : gmap positive string) (result : string) :
  csp.toRadix_result fuel T radix this = Some result ->
  exists p,
    csp.toRadix fuel T radix this m = Some (p, m) /\
    std.read m p = None /\
    forall text, std.strcmp_is_0 m p text = None.
Proof.
  intros E. destruct (return_c_str_dangling result m) as (p & Hret & Hread).
  exists p. unfold csp.toRadix. rewrite E. cbn [mbind option_bind].
  rewrite Hret. split; [reflexivity |]. split; [exact Hread |].
  intros text. unfold std.strcmp_is_0. rewrite Hread. reflexivity.
Qed.

Lemma toRadix_no_result (fuel : nat) (T : ity) (radix : Z)
    (this : csp.Integral) (m : gmap positive string) :
  csp.toRadix_result fuel T radix this = None ->
  csp.toRadix fuel T radix this m = None.
Proof. intros E. unfold csp.toRadix. rewrite E. reflexivity. Qed.

(** ** The iterations of the division loop *)

Lemma toRadix_divide_step (fuel : nat) (T : ity) (radix value : Z)
    (result_stack : list Z) :
  csp.toRadix_divide (S fuel) T radix value result_stack
  = if value =? 0 then Some result_stack
    else csp.toRadix_divide fuel T radix
           (cxx.cast T (cxx.to_size_t value / radix))
           (cxx.cast int (cxx.to_size_t value mod radix) :: result_stack).
Proof. reflexivity. Qed.

Lemma toRadix_iterations_step (k : nat) (T : ity) (radix value : Z)
    (result_stack : list Z) :
  csp.toRadix_iterations (S k) T radix value result_stack
  = if value =? 0 then (value, result_stack)
    else csp.toRadix_iterations k T radix
           (cxx.cast T (cxx.to_size_t value / radix))
           (cxx.cast int (cxx.to_size_t value mod radix) :: result_stack).
Proof. reflexivity. Qed.

(** The loop returns within its bound exactly when the iterations have
    brought the value to zero, and with their stack. *)
Lemma toRadix_divide_iterations (k : nat) (T : ity) (radix value : Z)
    (result_stack : list Z) :
  csp.toRadix_divide (S k) T radix value result_stack
  = (let '(v, stack) := csp.toRadix_iterations k T radix value result_stack in
     if v =? 0 then Some stack else None).
Proof.
  revert value result_stack.
  induction k as [| k IH]; intros value st.
  - cbn. destruct (value =? 0); reflexivity.
  - rewrite toRadix_divide_step, toRadix_iterations_step.
    destruct (value =? 0) eqn:Ez; [rewrite Ez; reflexivity |]. apply IH.
Qed.

(** At every iteration, whatever the value, the remainders on the stack
    lie between zero and the radix. *)
Lemma toRadix_iterations_stack (T : ity) (radix : Z) :
  2 <= radix <= 15 ->
  forall (k : nat) (value : Z) (result_stack : list Z),
    Forall (fun d => 0 <= d < radix) result_stack ->
    Forall (fun d => 0 <= d < radix)
      (snd (csp.toRadix_iterations k T radix value result_stack)).
Proof.
  intros Hr. induction k as [| k IH]; intros value st Hst; [exact Hst |].
  rewrite toRadix_iterations_step. destruct (value =? 0); [exact Hst |].
  apply IH. constructor; [| exact Hst].
  destruct (remainder_is_int (cxx.to_size_t value) radix Hr) as [-> H].
  exact H.
Qed.


(** ** Conversion to a radix *)

(** C4: for the radix zero and every radix above sixteen, [toRadix]
    builds, whatever the value and without entering the division loop,
    the text that the conversion to a string gives, which is the decimal
    numeral of the value, and returns [c_str()] of that temporary.  The
    temporary is destroyed before the caller holds the pointer: in the
    memory that the caller finds no array is alive at it, so that reading
    the text, as the tests of the repository do with [strcmp], is
    undefined. *)
Theorem radix_fallback_dangling (fuel : nat) (T : ity) (radix : Z)
    (this : csp.Integral) (m : gmap positive string) :
  radix = 0 \/ 16 < radix ->
  csp.toRadix_result fuel T radix this = Some (csp.operator_string this) /\
  spec.decimal_value (csp.operator_string this) = Some (csp.m_value this) /\
  exists p,
    csp.toRadix fuel T radix this m = Some (p, m) /\
    std.read m p = None /\
    std.strcmp_is_0 m p (csp.operator_string this) = None.
Proof.
  intros Hr.
  assert (E : csp.toRadix_result fuel T radix this
              = Some (csp.operator_string this)).
  { unfold csp.toRadix_result, csp.operator_string.
    destruct Hr as [-> | Hr]; [reflexivity |].
    destruct (Z.ltb_spec 16 radix); [| lia].
    rewrite orb_true_r. reflexivity. }
  split; [exact E |]. split; [apply to_string_decimal |].
  destruct (toRadix_dangling fuel T radix this m _ E) as (p & Hp & Hread & Hcmp).
  exists p. auto.
Qed.

Lemma radix_fallback_dangling_witness :
  csp.toRadix_result 0 long_long 0 (csp.mkIntegral 1234567890123456)
  = Some "1234567890123456"%string /\
  (exists p,
      csp.toRadix 0 long_long 0 (csp.mkIntegral 1234567890123456) ∅
      = Some (p, ∅) /\
      std.read ∅ p = None /\
      std.strcmp_is_0 ∅ p "1234567890123456" = None) /\
  (exists p,
      csp.toRadix 0 long_long 17 (csp.mkIntegral 1234567890123456) ∅
      = Some (p, ∅) /\
      std.read ∅ p = None /\
      std.strcmp_is_0 ∅ p "1234567890123456" = None).
Proof.
  destruct (radix_fallback_dangling 0 long_long 0
              (csp.mkIntegral 1234567890123456) ∅) as (H1 & _ & H2);
    [left; reflexivity |].
  destruct (radix_fallback_dangling 0 long_long 17
              (csp.mkIntegral 1234567890123456) ∅) as (_ & _ & H3);
    [right; lia |].
  split; [exact H1 |]. split; [exact H2 | exact H3].
Defined.

(** C5, as claimed: for every value the text would come from dividing
    the value by the radix until it is zero.  On [Integral<int>(-5)] the
    division of the language would leave -1 and -2 for the radix 3, and
    the text "-1-2"; the code assembles "102002022201221111122", which
    is no reading of -5 in base 3, and for the radix 2 the value never
    reaches zero, so that no text is assembled at all. *)
Lemma repeated_division_counterexample :
  spec.digits_text (spec.truncated_division 65 3 (-5) []) = "-1-2"%string /\
  csp.toRadix_result 65 int 3 (csp.mkIntegral (-5))
  = Some "102002022201221111122"%string /\
  csp.toRadix_result 65 int 3 (csp.mkIntegral (-5))
  <> Some (spec.digits_text (spec.radix_digits 3 (-5))) /\
  csp.toRadix_result 65 int 3 (csp.mkIntegral (-5))
  <> Some (spec.digits_text (spec.truncated_division 65 3 (-5) [])) /\
  ~ (exists fuel text,
        csp.toRadix_result fuel int 2 (csp.mkIntegral (-5)) = Some text).
Proof.
  split; [vm_compute; reflexivity |].
  split; [vm_compute; reflexivity |].
  split; [vm_compute; discriminate |].
  split; [vm_compute; discriminate |].
  intros (fuel & text & E). rewrite toRadix_int_minus_five in E. discriminate.
Qed.

(** C5, amended: for a radix from 2 to 15 other than 8 and a value of [T]
    that is not negative, the text that [toRadix] assembles is the text
    of the digits that repeated division by the radix leaves on the
    stack, the most significant first: digits below the radix whose
    positional value is the value converted.  The value zero gives the
    empty text. *)
Theorem radix_repeated_division (fuel : nat) (T : ity) (radix : Z)
    (this : csp.Integral) :
  2 <= radix <= 15 -> radix <> 8 ->
  in_range T (csp.m_value this) -> 0 <= csp.m_value this -> (64 < fuel)%nat ->
  csp.toRadix_result fuel T radix this
  = Some (spec.digits_text (spec.radix_digits radix (csp.m_value this))) /\
  spec.positional radix (spec.radix_digits radix (csp.m_value this))
  = csp.m_value this /\
  Forall (fun d => 0 <= d < radix) (spec.radix_digits radix (csp.m_value this)) /\
  (csp.m_value this = 0 ->
   csp.toRadix_result fuel T radix this = Some EmptyString).
Proof.
  intros Hr H8 HT Hv Hf.
  pose proof (toRadix_nonneg fuel T radix this Hr H8 HT Hv Hf) as E.
  split; [exact E |].
  split; [apply radix_digits_value; lia |].
  split; [apply radix_digits_bounds; lia |].
  intros Hz. rewrite E, Hz. reflexivity.
Qed.

Lemma radix_repeated_division_witness :
  csp.toRadix_result 65 long_long 4 (csp.mkIntegral 12) = Some "30"%string /\
  csp.toRadix_result 65 long_long 2 (csp.mkIntegral 12) = Some "1100"%string /\
  csp.toRadix_result 65 long_long 4 (csp.mkIntegral 0) = Some EmptyString.
Proof.
  split; [| split].
  - apply (radix_repeated_division 65 long_long 4 (csp.mkIntegral 12));
      side_by_computation.
  - apply (radix_repeated_division 65 long_long 2 (csp.mkIntegral 12));
      side_by_computation.
  - apply (radix_repeated_division 65 long_long 4 (csp.mkIntegral 0));
      side_by_computation.
Defined.

(** C9: for a radix from 11 to 15 and a value of [T] that is not negative,
    [toRadix] writes every digit into its local [result] as a decimal
    number, so that a digit from 10 to 14 takes the two characters of its
    decimal numeral and never the single letter of the hexadecimal
    notation.  What it returns is [c_str()] of that local, which is
    destroyed on return: no array is alive at the pointer the caller
    holds, and reading the text is undefined. *)
Theorem radix_digit_above_nine (fuel : nat) (T : ity) (radix : Z)
    (this : csp.Integral) (m : gmap positive string) :
  11 <= radix <= 15 ->
  in_range T (csp.m_value this) -> 0 <= csp.m_value this -> (64 < fuel)%nat ->
  csp.toRadix_result fuel T radix this
  = Some (spec.digits_text (spec.radix_digits radix (csp.m_value this))) /\
  Forall (fun d =>
            0 <= d < radix /\
            (10 <= d ->
             std.to_string d
             = String "1"%char (String (std.digit_char (d - 10)) EmptyString) /\
             std.to_string d <> String (std.digit_char d) EmptyString))
    (spec.radix_digits radix (csp.m_value this)) /\
  exists p,
    csp.toRadix fuel T radix this m = Some (p, m) /\
    std.read m p = None /\
    forall text, std.strcmp_is_0 m p text = None.
Proof.
  intros Hr HT Hv Hf.
  assert (E : csp.toRadix_result fuel T radix this
              = Some (spec.digits_text
                        (spec.radix_digits radix (csp.m_value this))))
    by (apply toRadix_nonneg; auto; lia).
  split; [exact E |]. split.
  - eapply Forall_impl; [apply (radix_digits_bounds radix); lia |].
    cbn. intros d Hd. split; [exact Hd |]. intros H10.
    rewrite to_string_two_chars by lia. split; [reflexivity | discriminate].
  - apply (toRadix_dangling fuel T radix this m _ E).
Qed.

Lemma radix_digit_above_nine_witness :
  csp.toRadix_result 65 int 14 (csp.mkIntegral 13) = Some "13"%string /\
  csp.toRadix_result 65 int 14 (csp.mkIntegral 13) <> Some "d"%string /\
  (exists p,
      csp.toRadix 65 int 14 (csp.mkIntegral 13) ∅ = Some (p, ∅) /\
      std.read ∅ p = None /\
      forall text, std.strcmp_is_0 ∅ p text = None) /\
  csp.toRadix_result 65 long_long 14 (csp.mkIntegral 9223372036854775807)
  = Some "4340724126127113127107"%string /\
  (exists p,
      csp.toRadix 65 long_long 14 (csp.mkIntegral 9223372036854775807) ∅
      = Some (p, ∅) /\
      std.read ∅ p = None /\
      forall text, std.strcmp_is_0 ∅ p text = None).
Proof.
  destruct (radix_digit_above_nine 65 int 14 (csp.mkIntegral 13) ∅)
    as (E & _ & Hp); [side_by_computation ..|].
  destruct (radix_digit_above_nine 65 long_long 14
              (csp.mkIntegral 9223372036854775807) ∅)
    as (E' & _ & Hp'); [side_by_computation ..|].
  split; [exact E |]. split; [rewrite E; discriminate |].
  split; [exact Hp |]. split; [| exact Hp'].
  rewrite E'. vm_compute. reflexivity.
Defined.

(** C10, as claimed: [Integral<int>(-5).toRadix(2)] would push -1, 0, -1
    and assemble "-10-1".  It does not: the first remainder pushed is
    +1, no bound on the iterations lets the loop end, and on [long long]
    the same call assembles the 64 binary digits of the two's
    complement. *)
Lemma negative_radix_counterexample :
  cxx.cast int (cxx.to_size_t (-5) mod 2) = 1 /\
  ~ (exists fuel,
        csp.toRadix_result fuel int 2 (csp.mkIntegral (-5))
        = Some "-10-1"%string) /\
  csp.toRadix_result 65 long_long 2 (csp.mkIntegral (-5))
  = Some "1111111111111111111111111111111111111111111111111111111111111011"%string.
Proof.
  split; [reflexivity |]. split; [| vm_compute; reflexivity].
  intros [fuel E]. rewrite toRadix_int_minus_five in E. discriminate.
Qed.

(** C10, amended: for a negative value of a signed [T] and a radix from 2
    to 15 other than 8, the remainder and the quotient are computed in
    the unsigned 64-bit [std::size_t].  At every iteration of the loop,
    whether or not the loop ever ends, every remainder on the stack lies
    between zero and the radix, beginning with the remainder of the value
    plus 2^64 that the first iteration pushes; the loop ends exactly when
    the iterations have brought the value to zero.  A text that is
    assembled consists of decimal digits only, without any minus sign,
    and for a 64-bit [T] it is the text of the digits of the value plus
    2^64. *)
Theorem negative_radix_unsigned (fuel : nat) (T : ity) (radix : Z)
    (this : csp.Integral) :
  ity_signed T = true -> in_range T (csp.m_value this) ->
  csp.m_value this < 0 -> 2 <= radix <= 15 -> radix <> 8 ->
  (forall k,
      Forall (fun d => 0 <= d < radix)
        (snd (csp.toRadix_iterations k T radix (csp.m_value this) []))) /\
  (0 <= (csp.m_value this + 2 ^ 64) mod radix < radix /\
   csp.toRadix_iterations 1 T radix (csp.m_value this) []
   = (cxx.cast T ((csp.m_value this + 2 ^ 64) / radix),
      [(csp.m_value this + 2 ^ 64) mod radix])) /\
  csp.toRadix_divide (S fuel) T radix (csp.m_value this) []
  = (let '(v, stack) :=
       csp.toRadix_iterations fuel T radix (csp.m_value this) [] in
     if v =? 0 then Some stack else None) /\
  (forall text,
      csp.toRadix_result fuel T radix this = Some text ->
      spec.all_chars spec.is_decimal_digit text = true) /\
  (width T = 64 -> (64 < fuel)%nat ->
   csp.toRadix_result fuel T radix this
   = Some (spec.digits_text
             (spec.radix_digits radix (csp.m_value this + 2 ^ 64)))).
Proof.
  intros Hs HT Hv Hr H8.
  split; [intros k; apply toRadix_iterations_stack; [exact Hr | constructor] |].
  split.
  { split; [apply Z.mod_pos_bound; lia |].
    rewrite toRadix_iterations_step.
    destruct (Z.eqb_spec (csp.m_value this) 0) as [Hz | _]; [lia |].
    rewrite (to_size_t_negative T) by assumption.
    destruct (remainder_is_int (csp.m_value this + 2 ^ 64) radix Hr) as [-> _].
    reflexivity. }
  split; [apply toRadix_divide_iterations |].
  split.
  - intros text E. rewrite toRadix_other_branch in E by assumption.
    destruct (csp.toRadix_divide fuel T radix (csp.m_value this) [])
      as [stack |] eqn:Ed; [| discriminate].
    cbn [mbind option_bind] in E. injection E as <-.
    assert (Hstack : Forall (fun d => 0 <= d < radix) stack)
      by (eapply toRadix_divide_stack; eauto).
    rewrite (toRadix_of_stack stack radix) by exact Hstack.
    apply digits_text_decimal.
    eapply Forall_impl; [exact Hstack |]. cbn. intros d Hd. lia.
  - intros Hw Hf. apply toRadix_negative_64; assumption.
Qed.

Lemma negative_radix_unsigned_witness :
  snd (csp.toRadix_iterations 5 int 2 (-5) []) = [1; 1; 0; 1; 1] /\
  Forall (fun d => 0 <= d < 2)
    (snd (csp.toRadix_iterations 5 int 2 (-5) [])) /\
  csp.toRadix_result 65 long_long 2 (csp.mkIntegral (-5))
  = Some (spec.digits_text (spec.radix_digits 2 (2 ^ 64 - 5))).
Proof.
  destruct (negative_radix_unsigned 65 int 2 (csp.mkIntegral (-5)))
    as (Hstack & _); [side_by_computation ..|].
  destruct (negative_radix_unsigned 65 long_long 2 (csp.mkIntegral (-5)))
    as (_ & _ & _ & _ & Hlong); [side_by_computation ..|].
  split; [reflexivity |]. split; [exact (Hstack 5%nat) |].
  apply Hlong; [reflexivity | lia].
Defined.


(** ** Construction from a string *)

Lemma found_at_0_prefix (needle value : string) :
  csp.found_at_0 needle value = String.prefix needle value.
Proof.
  unfold csp.found_at_0, std.find. destruct value as [| b value].
  - destruct needle; reflexivity.
  - cbn [String.index]. destruct (String.prefix needle (String b value)).
    + reflexivity.
    + destruct (String.index 0 needle value); reflexivity.
Qed.

Lemma prefix_split (needle value : string) :
  String.prefix needle value = true ->
  value = needle +:+ std.str_drop (String.length needle) value.
Proof.
  revert value. induction needle as [| a needle IH]; intros value H.
  - reflexivity.
  - destruct value as [| b value]; [discriminate |].
    cbn [String.prefix] in H. destruct (ascii_dec a b) as [-> | _];
      [| discriminate].
    rewrite str_app_cons. cbn [String.length std.str_drop].
    f_equal. apply IH, H.
Qed.

(** The four cases of the dispatch. *)
Lemma selected_base_cases (value : string) :
  (spec.selected_base value = 2 /\
   String.prefix "0b" value || String.prefix "0B" value = true) \/
  (spec.selected_base value = 16 /\
   String.prefix "0b" value || String.prefix "0B" value = false /\
   String.prefix "0x" value = true) \/
  (spec.selected_base value = 8 /\
   String.prefix "0b" value || String.prefix "0B" value = false /\
   String.prefix "0x" value = false /\ String.prefix "0" value = true) \/
  (spec.selected_base value = 10 /\
   String.prefix "0b" value || String.prefix "0B" value = false /\
   String.prefix "0x" value = false /\ String.prefix "0" value = false).
Proof.
  unfold spec.selected_base.
  destruct (String.prefix "0b" value || String.prefix "0B" value); [auto |].
  destruct (String.prefix "0x" value); [auto |].
  destruct (String.prefix "0" value); auto 10.
Qed.

(** The digits accumulated by the extraction are the leading digits. *)
Lemma scan_digits_leading (base : Z) (s : string) (seen : bool) (acc : Z) :
  std.scan_digits base s seen acc
  = (match spec.leading_digits base s with [] => seen | _ => true end,
     fold_left (fun a d => a * base + d) (spec.leading_digits base s) acc).
Proof.
  revert seen acc. induction s as [| c s IH]; intros seen acc; [reflexivity |].
  cbn [std.scan_digits spec.leading_digits].
  destruct (std.digit_in base c) as [d |]; [| reflexivity].
  rewrite IH. cbn [fold_left].
  destruct (spec.leading_digits base s); reflexivity.
Qed.

Lemma store_magnitude (T : ity) (n : Z) :
  std.store T false n
  = if numeric_limits_max T <? n then numeric_limits_max T else n.
Proof. unfold std.store. destruct (ity_signed T); reflexivity. Qed.

(** What is stored after the scan of an unsigned field: the value of the
    leading digits, or the largest value of [T] when it is larger. *)
Lemma scanned_value (T : ity) (base : Z) (s : string) :
  (let '(seen, n) := std.scan_digits base s false 0 in
   Some (if seen then std.store T false n else 0))
  = Some (if numeric_limits_max T <? spec.prefix_parse base s
          then numeric_limits_max T else spec.prefix_parse base s).
Proof.
  rewrite scan_digits_leading. unfold spec.prefix_parse, spec.positional.
  destruct (spec.leading_digits base s) as [| d ds] eqn:E.
  - cbn [fold_left]. pose proof (max_ge_15 T).
    destruct (Z.ltb_spec (numeric_limits_max T) 0); [lia | reflexivity].
  - rewrite store_magnitude. reflexivity.
Qed.

Lemma extract_hex_0x (T : ity) (rest : string) :
  std.istream_extract_int T std.fmt_hex (String "0" (String "x" rest))
  = Some (if numeric_limits_max T <? spec.prefix_parse 16 rest
          then numeric_limits_max T else spec.prefix_parse 16 rest).
Proof. rewrite <- scanned_value. reflexivity. Qed.

Lemma extract_plain (T : ity) (f : std.basefield) (c : ascii) (r : string) :
  spec.plain_start (String c r) -> f <> std.fmt_hex ->
  std.istream_extract_int T f (String c r)
  = Some (if numeric_limits_max T <? spec.prefix_parse (std.base_of f) (String c r)
          then numeric_limits_max T
          else spec.prefix_parse (std.base_of f) (String c r)).
Proof.
  intros (Hsp & Hm & Hp) Hf. rewrite <- scanned_value.
  unfold std.istream_extract_int. cbn [std.skipws]. rewrite Hsp.
  unfold std.read_sign.
  destruct (Z.eqb_spec (std.code c) 45); [contradiction |].
  destruct (Z.eqb_spec (std.code c) 43); [contradiction |].
  destruct f; [reflexivity | reflexivity | contradiction].
Qed.

Lemma extract_default_plain (T : ity) (f : std.basefield) (s : string) :
  spec.plain_start s -> f <> std.fmt_hex ->
  default 0 (std.istream_extract_int T f s)
  = if numeric_limits_max T <? spec.prefix_parse (std.base_of f) s
    then numeric_limits_max T else spec.prefix_parse (std.base_of f) s.
Proof.
  intros Hs Hf. destruct s as [| c r].
  - cbn. pose proof (max_ge_15 T).
    destruct (Z.ltb_spec (numeric_limits_max T) 0); [lia | reflexivity].
  - rewrite extract_plain by assumption. reflexivity.
Qed.

Ltac wrong_base H :=
  lazymatch goal with
  | E : spec.selected_base _ = _ |- _ => rewrite E in H; discriminate H
  end.

Lemma of_string_hex (T : ity) (value : string) :
  spec.selected_base value = 16 ->
  csp.Integral_of_string T value
  = Some (csp.mkIntegral
            (if numeric_limits_max T <? spec.prefix_parse 16 (spec.numeral_part value)
             then numeric_limits_max T
             else spec.prefix_parse 16 (spec.numeral_part value))).
Proof.
  intros H.
  destruct (selected_base_cases value)
    as [(E & _) | [(E & Hb & Hx) | [(E & _) | (E & _)]]]; try wrong_base H.
  unfold csp.Integral_of_string, spec.numeral_part.
  rewrite !found_at_0_prefix, Hb, Hx.
  pose proof (prefix_split _ _ Hx) as Hv.
  cbn [String.length] in Hv.
  remember (std.str_drop 2 value) as rest eqn:Hrest.
  change ("0x" +:+ rest) with (String "0" (String "x" rest)) in Hv.
  rewrite Hv at 1. rewrite extract_hex_0x. reflexivity.
Qed.

Lemma plain_start_zero (rest : string) : spec.plain_start (String "0" rest).
Proof. cbn. repeat split; [intros H; discriminate H ..]. Qed.

Lemma prefix_parse_leading_zero (base : Z) (rest : string) :
  2 <= base ->
  spec.prefix_parse base (String "0" rest) = spec.prefix_parse base rest.
Proof.
  intros Hb. unfold spec.prefix_parse, spec.positional.
  cbn [spec.leading_digits]. unfold std.digit_in.
  change (std.digit_value "0") with (Some 0).
  assert (Hlt : (0 <? base) = true) by (apply Z.ltb_lt; lia).
  cbv beta iota. rewrite Hlt. cbn [fold_left].
  replace (0 * base + 0) with 0 by lia. reflexivity.
Qed.

Lemma of_string_oct (T : ity) (value : string) :
  spec.selected_base value = 8 ->
  csp.Integral_of_string T value
  = Some (csp.mkIntegral
            (if numeric_limits_max T <? spec.prefix_parse 8 (spec.numeral_part value)
             then numeric_limits_max T
             else spec.prefix_parse 8 (spec.numeral_part value))).
Proof.
  intros H.
  destruct (selected_base_cases value)
    as [(E & _) | [(E & _) | [(E & Hb & Hx & Ho) | (E & _)]]]; try wrong_base H.
  unfold csp.Integral_of_string, spec.numeral_part.
  rewrite !found_at_0_prefix, Hb, Hx, Ho.
  pose proof (prefix_split _ _ Ho) as Hv.
  cbn [String.length] in Hv.
  remember (std.str_drop 1 value) as rest eqn:Hrest.
  change ("0" +:+ rest) with (String "0" rest) in Hv.
  rewrite Hv at 1.
  rewrite extract_default_plain by (auto using plain_start_zero; discriminate).
  cbn [std.base_of]. rewrite prefix_parse_leading_zero by lia. reflexivity.
Qed.

Lemma of_string_dec (T : ity) (value : string) :
  spec.selected_base value = 10 -> spec.plain_start value ->
  csp.Integral_of_string T value
  = Some (csp.mkIntegral
            (if numeric_limits_max T <? spec.prefix_parse 10 (spec.numeral_part value)
             then numeric_limits_max T
             else spec.prefix_parse 10 (spec.numeral_part value))).
Proof.
  intros H Hplain.
  destruct (selected_base_cases value)
    as [(E & _) | [(E & _) | [(E & _) | (E & Hb & Hx & Ho)]]]; try wrong_base H.
  unfold csp.Integral_of_string, spec.numeral_part.
  rewrite !found_at_0_prefix, Hb, Hx, Ho.
  rewrite extract_default_plain by (auto; discriminate). reflexivity.
Qed.

Lemma saturate_fits (T : ity) (n : Z) :
  n <= numeric_limits_max T ->
  (if numeric_limits_max T <? n then numeric_limits_max T else n) = n.
Proof. intros H. destruct (Z.ltb_spec (numeric_limits_max T) n); [lia | reflexivity]. Qed.

Lemma store_fits (T : ity) (neg : bool) (n : Z) :
  (if neg then ity_signed T = true /\ n <= - numeric_limits_min T
   else n <= numeric_limits_max T) ->
  std.store T neg n = if neg then - n else n.
Proof.
  unfold std.store. destruct neg.
  - intros [-> Hn].
    destruct (Z.ltb_spec (- numeric_limits_min T) n); [lia | reflexivity].
  - intros Hn. rewrite (saturate_fits T n Hn).
    destruct (ity_signed T); reflexivity.
Qed.

(** The base-10 path on any text: white space is skipped, a sign is
    read, and the digits that follow are parsed by prefix. *)
Lemma of_string_dec_signed (T : ity) (value : string) (neg : bool)
    (body : string) :
  spec.selected_base value = 10 ->
  std.read_sign (std.skipws value) = (neg, body) ->
  (if neg
   then ity_signed T = true /\ spec.prefix_parse 10 body <= - numeric_limits_min T
   else spec.prefix_parse 10 body <= numeric_limits_max T) ->
  csp.Integral_of_string T value
  = Some (csp.mkIntegral
            (if neg then - spec.prefix_parse 10 body
             else spec.prefix_parse 10 body)).
Proof.
  intros H Hsign Hfit.
  destruct (selected_base_cases value)
    as [(E & _) | [(E & _) | [(E & _) | (E & Hb & Hx & Ho)]]]; try wrong_base H.
  unfold csp.Integral_of_string.
  rewrite !found_at_0_prefix, Hb, Hx, Ho. do 2 f_equal.
  unfold std.istream_extract_int.
  destruct (std.skipws value) as [| c r] eqn:Hws.
  - cbn in Hsign. injection Hsign as <- <-. reflexivity.
  - rewrite Hsign. cbn [std.base_of].
    rewrite scan_digits_leading. fold (spec.positional 10).
    fold (spec.prefix_parse 10 body). cbn [default].
    unfold spec.prefix_parse at 1.
    destruct (spec.leading_digits 10 body) as [| d ds] eqn:Hd.
    + unfold spec.prefix_parse. rewrite Hd. destruct neg; reflexivity.
    + rewrite <- Hd. fold (spec.prefix_parse 10 body).
      apply store_fits, Hfit.
Qed.

Lemma of_string_bin (T : ity) (value : string) :
  spec.selected_base value = 2 ->
  csp.Integral_of_string T value
  = Some (csp.mkIntegral
            (if std.all_bits
                  (std.str_take (Z.to_nat (numeric_limits_digits T))
                     (spec.numeral_part value))
             then cxx.cast T
                    (std.bits_value
                       (std.str_take (Z.to_nat (numeric_limits_digits T))
                          (spec.numeral_part value)) 0)
             else 0)).
Proof.
  intros H.
  destruct (selected_base_cases value)
    as [(E & Hb) | [(E & _) | [(E & _) | (E & _)]]]; try wrong_base H.
  unfold csp.Integral_of_string, spec.numeral_part.
  rewrite !found_at_0_prefix, Hb.
  assert (Hv : exists c0 c1, value = String c0 (String c1 (std.str_drop 2 value))).
  { apply orb_true_iff in Hb as [Hp | Hp];
      apply prefix_split in Hp; cbn [String.length] in Hp.
    - exists "0"%char, "b"%char. exact Hp.
    - exists "0"%char, "B"%char. exact Hp. }
  destruct Hv as (c0 & c1 & Hv).
  remember (std.str_drop 2 value) as rest eqn:Hrest.
  unfold std.bitset. rewrite Hv. cbn [String.length std.str_drop].
  change (S (S (String.length rest)) <? 2)%nat with false.
  destruct (std.all_bits
              (std.str_take (Z.to_nat (numeric_limits_digits T)) rest));
    reflexivity.
Qed.

(** *** Binary numerals *)

Ltac split_tests :=
  repeat (lazymatch goal with
          | |- context [if ?test then _ else _] => destruct test eqn:?
          end).

Lemma is_bit_digit (c : ascii) :
  std.digit_in 2 c = if std.is_bit c then Some (std.code c - 48) else None.
Proof.
  unfold std.digit_in, std.digit_value, std.is_bit.
  generalize (std.code c) as n. intros n.
  split_tests; try reflexivity; lia.
Qed.

Lemma all_bits_leading (s : string) :
  std.all_bits s
  = (length (spec.leading_digits 2 s) =? String.length s)%nat.
Proof.
  induction s as [| c s IH]; [reflexivity |].
  cbn [std.all_bits spec.leading_digits String.length].
  rewrite is_bit_digit. destruct (std.is_bit c); [| reflexivity].
  cbn [andb length]. exact IH.
Qed.

Lemma bits_value_leading (s : string) (acc : Z) :
  std.all_bits s = true ->
  std.bits_value s acc
  = fold_left (fun a d => a * 2 + d) (spec.leading_digits 2 s) acc.
Proof.
  revert acc. induction s as [| c s IH]; intros acc H; [reflexivity |].
  cbn [std.all_bits] in H. apply andb_true_iff in H as [Hc Hs].
  cbn [std.bits_value spec.leading_digits]. rewrite is_bit_digit, Hc.
  cbn [fold_left]. rewrite IH by exact Hs. f_equal. lia.
Qed.

Lemma str_take_all (n : nat) (s : string) :
  (String.length s <= n)%nat -> std.str_take n s = s.
Proof.
  revert n. induction s as [| c s IH]; intros n Hn.
  - destruct n; reflexivity.
  - destruct n as [| n]; [cbn in Hn; lia |].
    cbn [std.str_take]. f_equal. apply IH. cbn in Hn. lia.
Qed.

Lemma digit_value_nonneg (c : ascii) (d : Z) :
  std.digit_value c = Some d -> 0 <= d.
Proof.
  unfold std.digit_value. generalize (std.code c) as n. intros n.
  split_tests; intros E; try discriminate E; injection E as <-; lia.
Qed.

Lemma leading_digits_bounds (base : Z) (s : string) :
  Forall (fun d => 0 <= d < base) (spec.leading_digits base s).
Proof.
  induction s as [| c s IH]; [constructor |].
  cbn [spec.leading_digits]. unfold std.digit_in.
  destruct (std.digit_value c) as [d |] eqn:E; [| constructor].
  destruct (Z.ltb_spec d base); constructor; [| exact IH].
  split; [eapply digit_value_nonneg; eauto | assumption].
Qed.

Lemma positional_bound (base : Z) (ds : list Z) (acc : Z) :
  1 <= base -> Forall (fun d => 0 <= d < base) ds -> 0 <= acc ->
  0 <= fold_left (fun a d => a * base + d) ds acc
     < (acc + 1) * base ^ Z.of_nat (length ds).
Proof.
  intros Hb Hds. revert acc.
  induction Hds as [| d ds Hd _ IH]; intros acc Hacc.
  - cbn. lia.
  - cbn [fold_left length]. rewrite Nat2Z.inj_succ, Z.pow_succ_r by lia.
    specialize (IH (acc * base + d) ltac:(nia)).
    assert (0 < base ^ Z.of_nat (length ds)) by (apply Z.pow_pos_nonneg; lia).
    split; [lia |]. nia.
Qed.

Lemma max_digits (T : ity) :
  numeric_limits_max T = 2 ^ numeric_limits_digits T - 1 /\
  0 <= numeric_limits_digits T.
Proof. destruct T as [[] []]; split; cbn; lia. Qed.

(** A binary numeral no longer than the digits of [T]: all or nothing. *)
Lemma binary_all_or_nothing (T : ity) (text : string) :
  (String.length text <= Z.to_nat (numeric_limits_digits T))%nat ->
  (if std.all_bits text
   then cxx.cast T
          (std.bits_value
             (std.str_take (Z.to_nat (numeric_limits_digits T)) text) 0)
   else 0)
  = spec.all_or_nothing 2 text.
Proof.
  intros Hlen. unfold spec.all_or_nothing. rewrite <- all_bits_leading.
  destruct (std.all_bits text) eqn:Hbits; [| reflexivity].
  rewrite str_take_all by exact Hlen.
  rewrite bits_value_leading by exact Hbits. fold (spec.positional 2).
  apply cast_in_range.
  pose proof (positional_bound 2 (spec.leading_digits 2 text) 0 ltac:(lia)
                (leading_digits_bounds 2 text) ltac:(lia)) as Hbound.
  rewrite all_bits_leading in Hbits. apply Nat.eqb_eq in Hbits.
  rewrite Hbits in Hbound. destruct (max_digits T) as [Hmax Hd].
  pose proof (min_le_0 T). unfold in_range, spec.positional. rewrite Hmax.
  assert (2 ^ Z.of_nat (String.length text) <= 2 ^ numeric_limits_digits T)
    by (apply Z.pow_le_mono_r; lia).
  lia.
Qed.

Lemma of_string_dec_store (T : ity) (value : string) (neg : bool)
    (body : string) :
  spec.selected_base value = 10 ->
  std.read_sign (std.skipws value) = (neg, body) ->
  csp.Integral_of_string T value
  = Some (csp.mkIntegral
            (match spec.leading_digits 10 body with
             | [] => 0
             | _ => std.store T neg (spec.prefix_parse 10 body)
             end)).
Proof.
  intros H Hsign.
  destruct (selected_base_cases value)
    as [(E & _) | [(E & _) | [(E & _) | (E & Hb & Hx & Ho)]]]; try wrong_base H.
  unfold csp.Integral_of_string.
  rewrite !found_at_0_prefix, Hb, Hx, Ho. do 2 f_equal.
  unfold std.istream_extract_int.
  destruct (std.skipws value) as [| c r] eqn:Hws.
  - cbn in Hsign. injection Hsign as <- <-. reflexivity.
  - rewrite Hsign. cbn [std.base_of]. rewrite scan_digits_leading.
    unfold spec.prefix_parse, spec.positional.
    destruct (spec.leading_digits 10 body); reflexivity.
Qed.

Lemma str_take_length (n : nat) (s : string) :
  (String.length (std.str_take n s) <= n)%nat.
Proof.
  revert s. induction n as [| n IH]; intros s; [cbn; lia |].
  destruct s as [| c r]; cbn; [lia |]. specialize (IH r). lia.
Qed.

Lemma str_take_twice (n : nat) (s : string) :
  std.str_take n (std.str_take n s) = std.str_take n s.
Proof. apply str_take_all, str_take_length. Qed.

(** Of any text, the first characters that the bitset examines are read
    all or nothing. *)
Lemma binary_cut_all_or_nothing (T : ity) (text : string) :
  (if std.all_bits (std.str_take (Z.to_nat (numeric_limits_digits T)) text)
   then cxx.cast T
          (std.bits_value
             (std.str_take (Z.to_nat (numeric_limits_digits T)) text) 0)
   else 0)
  = spec.all_or_nothing 2
      (std.str_take (Z.to_nat (numeric_limits_digits T)) text).
Proof.
  rewrite <- (binary_all_or_nothing T) by apply str_take_length.
  rewrite str_take_twice. reflexivity.
Qed.



Ltac plain_by_computation :=
  cbn; repeat split; intros Hcmp; discriminate Hcmp.



Lemma str_take_empty (n : nat) : std.str_take n EmptyString = EmptyString.
Proof. destruct n; reflexivity. Qed.

Lemma cast_zero (T : ity) : cxx.cast T 0 = 0.
Proof.
  apply cast_in_range. pose proof (min_le_0 T). pose proof (max_ge_15 T).
  unfold in_range. lia.
Qed.







(** ** The test suite of the repository, replayed on the model *)

Example test_default_constructor : csp.operator_T csp.Integral_default = 0.
Proof. reflexivity. Qed.

Example test_truncating_constructor :
  csp.operator_T (csp.Integral_of_compatible int 7) = 7.
Proof. reflexivity. Qed.

Example test_comparisons :
  csp.operator_eq (csp.mkIntegral 7) (csp.mkIntegral 7) = true /\
  csp.operator_ne (csp.mkIntegral 7) (csp.mkIntegral 1) = true /\
  csp.operator_lt (csp.mkIntegral 1) (csp.mkIntegral 7) = true /\
  csp.operator_gt (csp.mkIntegral 7) (csp.mkIntegral 1) = true /\
  csp.operator_le (csp.mkIntegral 7) (csp.mkIntegral 7) = true /\
  csp.operator_ge (csp.mkIntegral 10) (csp.mkIntegral 7) = true.
Proof. repeat split. Qed.

(** The texts that the tests of the base conversions expect are the
    texts assembled. *)
Example test_base_conversions :
  csp.toRadix_result 65 long_long 4 (csp.mkIntegral 12) = Some "30"%string /\
  csp.toRadix_result 65 long_long 16 (csp.mkIntegral 12) = Some "c"%string /\
  csp.toRadix_result 65 long_long 8 (csp.mkIntegral 12) = Some "14"%string /\
  csp.toRadix_result 65 long_long 2 (csp.mkIntegral 12) = Some "1100"%string.
Proof. repeat split. Qed.

(** Their [strcmp], and the one of the test of the conversion to a
    C string, read through a pointer whose array is dead. *)
Example test_base_conversions_strcmp :
  ('(base4, m) ← csp.toRadix 65 long_long 4 (csp.mkIntegral 12) ∅;
   std.strcmp_is_0 m base4 "30") = None /\
  ('(base16, m) ← csp.hex 65 long_long (csp.mkIntegral 12) ∅;
   std.strcmp_is_0 m base16 "c") = None /\
  ('(base8, m) ← csp.oct 65 long_long (csp.mkIntegral 12) ∅;
   std.strcmp_is_0 m base8 "14") = None /\
  ('(base2, m) ← csp.bin 65 long_long (csp.mkIntegral 12) ∅;
   std.strcmp_is_0 m base2 "1100") = None /\
  (let '(number, m) := csp.operator_c_str (csp.mkIntegral 7) ∅ in
   std.strcmp_is_0 m number "7") = None.
Proof. repeat split; vm_compute; reflexivity. Qed.

Example test_conversion_to_string :
  csp.operator_string (csp.mkIntegral 7) = "7"%string.
Proof. reflexivity. Qed.

Example test_numerical_properties :
  csp.odd (csp.mkIntegral 12) = false /\ csp.even (csp.mkIntegral 12) = true.
Proof. split; reflexivity. Qed.

Example test_user_defined_literals :
  csp.operator_T (csp.Integral_of_compatible (IType Short false) 97) = 97 /\
  csp.operator_T (csp.Integral_of_compatible unsigned_int 0) = 0 /\
  csp.operator_T (csp.Integral_of_compatible (IType Long false) 100) = 100 /\
  csp.operator_T (csp.Integral_of_compatible (IType LongLong false) 12345)
  = 12345.
Proof. repeat split. Qed.

(** * Further properties of the class *)

(** ** Numerals written by the library *)

Lemma render_go_head (base : Z) :
  2 <= base ->
  forall fuel n acc,
    0 < n < 2 ^ (Z.of_nat fuel + 1) ->
    exists d rest,
      std.render_go fuel base n acc = String (std.digit_char d) rest /\
      0 < d < base.
Proof.
  intros Hb. induction fuel as [| fuel IH]; intros n acc Hn.
  - change (2 ^ (Z.of_nat 0 + 1)) with 2 in Hn. assert (n = 1) as -> by lia.
    exists 1, acc. cbn [std.render_go]. rewrite Z.mod_small by lia.
    split; [reflexivity | lia].
  - cbn [std.render_go]. destruct (Z.ltb_spec n base) as [Hlt | Hge].
    + exists n, acc. rewrite Z.mod_small by lia. split; [reflexivity | lia].
    + apply IH. split.
      * apply Z.div_str_pos. lia.
      * replace (Z.of_nat (S fuel) + 1) with (Z.succ (Z.of_nat fuel + 1)) in Hn
          by lia.
        rewrite Z.pow_succ_r in Hn by lia.
        apply Z.div_lt_upper_bound; [lia |].
        assert (0 < 2 ^ (Z.of_nat fuel + 1)) by (apply Z.pow_pos_nonneg; lia).
        nia.
Qed.

(** The numeral of a positive number does not begin with a zero. *)
Lemma render_head (base n : Z) :
  2 <= base -> 0 < n ->
  exists d rest,
    std.render base n = String (std.digit_char d) rest /\ 0 < d < base.
Proof.
  intros Hb Hn. unfold std.render. apply render_go_head; [exact Hb |].
  split; [exact Hn | apply log2_fuel_bound; lia].
Qed.

Lemma render_prefix_parse (base n : Z) :
  2 <= base <= 16 -> 0 <= n -> spec.prefix_parse base (std.render base n) = n.
Proof.
  intros Hb Hn. unfold spec.prefix_parse, spec.positional, std.render.
  rewrite render_go_value by (auto using log2_fuel_bound). reflexivity.
Qed.

Lemma render_decimal_chars (base n : Z) :
  2 <= base <= 10 ->
  spec.all_chars spec.is_decimal_digit (std.render base n) = true.
Proof.
  intros Hb. unfold std.render. apply render_go_all_chars; [lia | | reflexivity].
  intros d Hd. apply digit_char_decimal. lia.
Qed.

Lemma render_go_length (base : Z) (fuel : nat) :
  forall n acc,
    (String.length (std.render_go fuel base n acc)
     <= S fuel + String.length acc)%nat.
Proof.
  induction fuel as [| fuel IH]; intros n acc; cbn [std.render_go].
  - cbn. lia.
  - destruct (n <? base); [cbn; lia |].
    etransitivity; [apply IH |]. cbn. lia.
Qed.

(** ** The dispatch on texts that begin with a digit *)

Lemma decimal_digit_code (c : ascii) :
  spec.is_decimal_digit c = true -> 48 <= std.code c <= 57.
Proof. unfold spec.is_decimal_digit. lia. Qed.

Lemma selected_base_nonzero_digit (c : ascii) (r : string) :
  spec.is_decimal_digit c = true -> std.code c <> 48 ->
  spec.selected_base (String c r) = 10 /\
  spec.numeral_part (String c r) = String c r /\
  spec.plain_start (String c r).
Proof.
  intros Hd Hc. pose proof (decimal_digit_code c Hd) as Hcode.
  assert (Hne : "0"%char <> c) by (intros <-; apply Hc; reflexivity).
  unfold spec.selected_base, spec.numeral_part.
  cbn [String.prefix]. destruct (ascii_dec "0" c) as [E | _]; [contradiction |].
  cbn [orb]. split; [reflexivity |]. split; [reflexivity |].
  split; [apply decimal_digit_not_space, Hd | split; lia].
Qed.

Lemma selected_base_zero_digit (c : ascii) (r : string) :
  spec.is_decimal_digit c = true ->
  spec.selected_base (String "0" (String c r)) = 8 /\
  spec.numeral_part (String "0" (String c r)) = String c r.
Proof.
  intros Hd. pose proof (decimal_digit_code c Hd) as Hcode.
  assert (Hb : "b"%char <> c) by (intros <-; discriminate Hd).
  assert (HB : "B"%char <> c) by (intros <-; discriminate Hd).
  assert (Hx : "x"%char <> c) by (intros <-; discriminate Hd).
  unfold spec.selected_base, spec.numeral_part. cbn [String.prefix].
  destruct (ascii_dec "0" "0") as [_ | N]; [| contradiction N; reflexivity].
  destruct (ascii_dec "b" c); [contradiction |].
  destruct (ascii_dec "B" c); [contradiction |].
  destruct (ascii_dec "x" c); [contradiction |].
  split; reflexivity.
Qed.

(** ** Round trips between an object and its texts *)

Lemma signed_of_negative (T : ity) (v : Z) :
  in_range T v -> v < 0 -> ity_signed T = true.
Proof.
  unfold in_range, numeric_limits_min. destruct (ity_signed T); [reflexivity | lia].
Qed.

(** What the string constructor reads in the text of [std::to_string]. *)
Lemma of_string_to_string (T : ity) (v : Z) :
  in_range T v ->
  csp.Integral_of_string T (std.to_string v) = Some (csp.mkIntegral v).
Proof.
  intros HT. unfold std.to_string.
  destruct (Z.ltb_spec v 0) as [Hneg | Hpos].
  - rewrite (of_string_dec_signed T _ true (std.render 10 (- v)));
      [| reflexivity | reflexivity |].
    + rewrite render_prefix_parse by lia. do 2 f_equal. lia.
    + split; [eapply signed_of_negative; eauto |].
      rewrite render_prefix_parse by lia. unfold in_range in HT. lia.
  - destruct (Z.eq_dec v 0) as [-> | Hnz].
    + change (std.render 10 0) with "0"%string.
      rewrite of_string_oct by reflexivity.
      change (spec.prefix_parse 8 (spec.numeral_part "0")) with 0.
      rewrite saturate_fits by (pose proof (max_ge_15 T); lia). reflexivity.
    + destruct (render_head 10 v ltac:(lia) ltac:(lia)) as (d & rest & E & Hd).
      pose proof (render_prefix_parse 10 v ltac:(lia) Hpos) as Hval.
      rewrite E in *.
      assert (Hdigit : spec.is_decimal_digit (std.digit_char d) = true)
        by (apply digit_char_decimal; lia).
      assert (Hcode : std.code (std.digit_char d) <> 48).
      { assert (H16 : 0 <= d < 16) by lia.
        each_small_digit H16; try lia; vm_compute; discriminate. }
      destruct (selected_base_nonzero_digit _ rest Hdigit Hcode)
        as (Hbase & Hpart & Hplain).
      rewrite of_string_dec by assumption. rewrite Hpart, Hval.
      rewrite saturate_fits by (unfold in_range in HT; lia). reflexivity.
Qed.

(** X1: the text that the conversion to [std::string] gives for a value of
    [T] is parsed back by the string constructor to the same value,
    whatever the sign and for zero too. *)
Theorem string_round_trip (T : ity) (this : csp.Integral) :
  in_range T (csp.m_value this) ->
  csp.Integral_of_string T (csp.operator_string this) = Some this.
Proof.
  destruct this as [v]. cbn [csp.m_value]. intros HT.
  unfold csp.operator_string. cbn [csp.m_value].
  apply of_string_to_string, HT.
Qed.

Lemma string_round_trip_witness :
  csp.Integral_of_string int (csp.operator_string (csp.mkIntegral (-120)))
  = Some (csp.mkIntegral (-120)).
Proof.
  apply (string_round_trip int (csp.mkIntegral (-120))). range_by_computation.
Defined.

Lemma take_word_without_space (s : string) :
  spec.all_chars (fun c => negb (std.isspace c)) s = true ->
  default EmptyString (std.istream_extract_string s) = s.
Proof.
  intros H. unfold std.istream_extract_string.
  destruct s as [| c s]; [reflexivity |].
  pose proof H as H'. cbn [spec.all_chars] in H'.
  apply andb_true_iff in H' as [Hc _]. apply negb_true_iff in Hc.
  cbn [std.skipws]. rewrite Hc. cbv [default from_option id].
  revert H. generalize (String c s) as t. clear.
  induction t as [| a t IH]; [reflexivity |].
  cbn [spec.all_chars std.take_word]. intros H.
  apply andb_true_iff in H as [Ha Ht]. apply negb_true_iff in Ha.
  rewrite Ha. f_equal. apply IH, Ht.
Qed.

Lemma render_without_space (base n : Z) :
  2 <= base <= 16 ->
  spec.all_chars (fun c => negb (std.isspace c)) (std.render base n) = true.
Proof.
  intros Hb. unfold std.render. apply render_go_all_chars; [lia | | reflexivity].
  intros d Hd. rewrite digit_char_not_space by lia. reflexivity.
Qed.

(** The two's complement of a value of [T], as an unsigned number. *)
Lemma unsigned_of_value (T : ity) (v : Z) :
  in_range T v ->
  v mod 2 ^ width T = (if v <? 0 then v + 2 ^ width T else v) /\
  (v < 0 -> numeric_limits_max T < v + 2 ^ width T).
Proof.
  unfold in_range. intros HT.
  pose proof (pow2_width_split T) as Hs. pose proof (pow2_width_pos T) as Hp.
  destruct (limits_cases T) as [(Hmin & Hmax & _) | (Hmin & Hmax & _)];
    rewrite Hmin, Hmax in *.
  - destruct (Z.ltb_spec v 0).
    + split; [| lia]. symmetry. apply Z.mod_unique with (q := -1); lia.
    + split; [| lia]. apply Z.mod_small. lia.
  - destruct (Z.ltb_spec v 0); [lia |]. split; [| lia]. apply Z.mod_small. lia.
Qed.

Lemma toRadix_hex_text (fuel : nat) (T : ity) (this : csp.Integral) :
  csp.toRadix_result fuel T 16 this
  = Some (std.render 16 (csp.m_value this mod 2 ^ width T)).
Proof.
  unfold csp.toRadix_result.
  change (16 =? 0) with false. change (16 <? 16) with false.
  change (16 =? 16) with true. cbn [orb].
  cbn [std.ostream_insert_int std.base_of].
  rewrite take_word_without_space by (apply render_without_space; lia).
  reflexivity.
Qed.

Lemma toRadix_oct_text (fuel : nat) (T : ity) (this : csp.Integral) :
  csp.toRadix_result fuel T 8 this
  = Some (std.render 8 (csp.m_value this mod 2 ^ width T)).
Proof.
  unfold csp.toRadix_result.
  change (8 =? 0) with false. change (16 <? 8) with false.
  change (8 =? 16) with false. change (8 =? 8) with true. cbn [orb].
  cbn [std.ostream_insert_int std.base_of].
  rewrite take_word_without_space by (apply render_without_space; lia).
  reflexivity.
Qed.

Lemma saturate_above (T : ity) (n : Z) :
  numeric_limits_max T < n ->
  (if numeric_limits_max T <? n then numeric_limits_max T else n)
  = numeric_limits_max T.
Proof. intros H. destruct (Z.ltb_spec (numeric_limits_max T) n); [reflexivity | lia]. Qed.

Lemma render_first_decimal (base n : Z) :
  2 <= base <= 10 ->
  exists c r, std.render base n = String c r /\ spec.is_decimal_digit c = true.
Proof.
  intros Hb. pose proof (render_nonempty base n) as Hne.
  pose proof (render_decimal_chars base n Hb) as Hall.
  destruct (std.render base n) as [| c r]; [congruence |].
  cbn [spec.all_chars] in Hall. apply andb_true_iff in Hall as [Hc _]. eauto.
Qed.

Lemma selected_base_0x (text : string) :
  spec.selected_base (String "0" (String "x" text)) = 16 /\
  spec.numeral_part (String "0" (String "x" text)) = text.
Proof. destruct text; split; reflexivity. Qed.

(** X2: the text that [hex()], which is [toRadix(16)], assembles in its
    local [result] is, whatever the value and without any iteration, not
    empty and the base-16 numeral of the value, or of the value plus
    2^width when it is negative.  The string constructor reads "0x"
    followed by that text as the value when it is not negative, and as
    the largest value of [T] when it is.  (The caller of [hex()] holds a
    pointer to the destroyed [result] only.) *)
Theorem hex_round_trip (fuel : nat) (T : ity) (this : csp.Integral) :
  in_range T (csp.m_value this) ->
  exists text,
    csp.toRadix_result fuel T 16 this = Some text /\ text <> EmptyString /\
    spec.numeral_value 16 text
    = Some (if csp.m_value this <? 0 then csp.m_value this + 2 ^ width T
            else csp.m_value this) /\
    csp.Integral_of_string T ("0x" +:+ text)
    = Some (csp.mkIntegral
              (if csp.m_value this <? 0 then numeric_limits_max T
               else csp.m_value this)).
Proof.
  intros HT. destruct (unsigned_of_value T _ HT) as [Hu Hbig].
  exists (std.render 16 (csp.m_value this mod 2 ^ width T)).
  assert (Hpos : 0 <= csp.m_value this mod 2 ^ width T).
  { apply Z.mod_pos_bound. pose proof (pow2_width_split T).
    pose proof (pow2_width_pos T). lia. }
  split; [apply toRadix_hex_text |]. split; [apply render_nonempty |].
  split; [rewrite render_numeral by lia; f_equal; exact Hu |].
  change ("0x" +:+ ?t) with (String "0" (String "x" t)).
  destruct (selected_base_0x (std.render 16 (csp.m_value this mod 2 ^ width T)))
    as [Hbase Hpart].
  rewrite of_string_hex by exact Hbase. rewrite Hpart.
  rewrite render_prefix_parse by lia. rewrite Hu. do 2 f_equal.
  destruct (Z.ltb_spec (csp.m_value this) 0).
  - apply saturate_above. auto.
  - apply saturate_fits. unfold in_range in HT. lia.
Qed.

Lemma hex_round_trip_witness :
  exists text,
    csp.toRadix_result 0 int 16 (csp.mkIntegral (-1)) = Some text /\ text <> EmptyString /\
    spec.numeral_value 16 text = Some 4294967295 /\
    csp.Integral_of_string int ("0x" +:+ text)
    = Some (csp.mkIntegral 2147483647).
Proof.
  apply (hex_round_trip 0 int (csp.mkIntegral (-1))). range_by_computation.
Defined.

(** X3: the text that [oct()], which is [toRadix(8)], assembles in its
    local [result] is not empty and is the base-8 numeral of the value, or
    of the value plus 2^width when it is negative.  The string
    constructor reads "0" followed by that text as the value when it is
    not negative, and as the largest value of [T] when it is. *)
Theorem oct_round_trip (fuel : nat) (T : ity) (this : csp.Integral) :
  in_range T (csp.m_value this) ->
  exists text,
    csp.toRadix_result fuel T 8 this = Some text /\ text <> EmptyString /\
    spec.numeral_value 8 text
    = Some (if csp.m_value this <? 0 then csp.m_value this + 2 ^ width T
            else csp.m_value this) /\
    csp.Integral_of_string T ("0" +:+ text)
    = Some (csp.mkIntegral
              (if csp.m_value this <? 0 then numeric_limits_max T
               else csp.m_value this)).
Proof.
  intros HT. destruct (unsigned_of_value T _ HT) as [Hu Hbig].
  exists (std.render 8 (csp.m_value this mod 2 ^ width T)).
  assert (Hpos : 0 <= csp.m_value this mod 2 ^ width T).
  { apply Z.mod_pos_bound. pose proof (pow2_width_split T).
    pose proof (pow2_width_pos T). lia. }
  split; [apply toRadix_oct_text |]. split; [apply render_nonempty |].
  split; [rewrite render_numeral by lia; f_equal; exact Hu |].
  pose proof (render_prefix_parse 8 _ ltac:(lia) Hpos) as Hval.
  destruct (render_first_decimal 8 (csp.m_value this mod 2 ^ width T)
              ltac:(lia)) as (c & r & E & Hc).
  rewrite E in *.
  destruct (selected_base_zero_digit c r Hc) as [Hbase Hpart].
  change ("0" +:+ String c r) with (String "0" (String c r)).
  rewrite of_string_oct by exact Hbase. rewrite Hpart, Hval, Hu.
  do 2 f_equal. destruct (Z.ltb_spec (csp.m_value this) 0).
  - apply saturate_above. auto.
  - apply saturate_fits. unfold in_range in HT. lia.
Qed.

Lemma oct_round_trip_witness :
  exists text,
    csp.toRadix_result 0 long_long 8 (csp.mkIntegral 12) = Some text /\
    text <> EmptyString /\
    spec.numeral_value 8 text = Some 12 /\
    csp.Integral_of_string long_long ("0" +:+ text) = Some (csp.mkIntegral 12).
Proof.
  apply (oct_round_trip 0 long_long (csp.mkIntegral 12)). range_by_computation.
Defined.

(** ** The division loop and the standard numerals *)

Lemma to_string_digit (d : Z) :
  0 <= d < 10 -> std.to_string d = String (std.digit_char d) EmptyString.
Proof.
  intros H. assert (H' : 0 <= d < 16) by lia.
  each_small_digit H'; try reflexivity; lia.
Qed.

Lemma repeated_division_zero (k : nat) (radix : Z) (stack : list Z) :
  spec.repeated_division k radix 0 stack = stack.
Proof. destruct k; reflexivity. Qed.

Lemma digits_text_cons (base d : Z) (stack : list Z) :
  0 <= d < base -> base <= 10 ->
  spec.digits_text (d :: stack)
  = String (std.digit_char d) (spec.digits_text stack).
Proof.
  intros Hd Hb. cbn [spec.digits_text fold_right].
  rewrite to_string_digit by lia. reflexivity.
Qed.

(** Up to radix ten, the digits left by the repeated division are written
    as the library writes the number in that radix. *)
Lemma digits_text_render (base : Z) :
  2 <= base <= 10 ->
  forall (k fuel : nat) (n : Z) (stack : list Z),
    0 < n < 2 ^ Z.of_nat k -> n < 2 ^ (Z.of_nat fuel + 1) ->
    spec.digits_text (spec.repeated_division k base n stack)
    = std.render_go fuel base n (spec.digits_text stack).
Proof.
  intros Hb. induction k as [| k IH]; intros fuel n stack Hk Hf.
  - change (2 ^ Z.of_nat 0) with 1 in Hk. lia.
  - rewrite repeated_division_step.
    destruct (Z.eqb_spec n 0) as [Hz | _]; [lia |].
    pose proof (Z.mod_pos_bound n base ltac:(lia)) as Hm.
    destruct (Z.lt_ge_cases n base) as [Hlt | Hge].
    + rewrite Z.div_small by lia. rewrite repeated_division_zero.
      rewrite (digits_text_cons base) by lia.
      destruct fuel as [| fuel]; cbn [std.render_go]; [reflexivity |].
      destruct (Z.ltb_spec n base); [reflexivity | lia].
    + destruct fuel as [| fuel];
        [change (2 ^ (Z.of_nat 0 + 1)) with 2 in Hf; lia |].
      cbn [std.render_go]. destruct (Z.ltb_spec n base); [lia |].
      rewrite <- (digits_text_cons base) by lia.
      assert (H2k : 0 < 2 ^ Z.of_nat k) by (apply Z.pow_pos_nonneg; lia).
      assert (H2f : 0 < 2 ^ (Z.of_nat fuel + 1))
        by (apply Z.pow_pos_nonneg; lia).
      rewrite Nat2Z.inj_succ, Z.pow_succ_r in Hk by lia.
      replace (Z.of_nat (S fuel) + 1) with (Z.succ (Z.of_nat fuel + 1)) in Hf
        by lia.
      rewrite Z.pow_succ_r in Hf by lia.
      apply IH.
      * split; [apply Z.div_str_pos; lia |].
        apply Z.div_lt_upper_bound; [lia | nia].
      * apply Z.div_lt_upper_bound; [lia | nia].
Qed.

(** [toRadix] for a radix up to ten, on a positive value: the standard
    numeral. *)
Lemma toRadix_standard (fuel : nat) (T : ity) (radix : Z)
    (this : csp.Integral) :
  2 <= radix <= 10 -> radix <> 8 ->
  in_range T (csp.m_value this) -> 0 < csp.m_value this -> (64 < fuel)%nat ->
  csp.toRadix_result fuel T radix this = Some (std.render radix (csp.m_value this)).
Proof.
  intros Hr H8 HT Hv Hf.
  rewrite toRadix_nonneg by (auto; lia). f_equal.
  unfold spec.radix_digits, std.render.
  rewrite (digits_text_render radix Hr _ (Z.to_nat (Z.log2 (csp.m_value this)))).
  - reflexivity.
  - split; [exact Hv | apply radix_fuel_bound; lia].
  - apply log2_fuel_bound. lia.
Qed.

Lemma toRadix_zero (fuel : nat) (T : ity) (radix : Z) :
  2 <= radix <= 15 -> radix <> 8 -> (0 < fuel)%nat ->
  csp.toRadix_result fuel T radix (csp.mkIntegral 0) = Some EmptyString.
Proof.
  intros Hr H8 Hf. rewrite toRadix_other_branch by assumption.
  destruct fuel as [| fuel]; [lia |]. reflexivity.
Qed.

(** X4: the text that [dec()], which is [toRadix(10)], assembles in its
    local [result] is for a positive value the very text of the
    conversion to [std::string]; for zero it is the empty text, where the
    conversion gives "0".  In both cases the string constructor reads
    the assembled text as the value. *)
Theorem dec_versus_string (fuel : nat) (T : ity) (this : csp.Integral) :
  in_range T (csp.m_value this) -> 0 <= csp.m_value this -> (64 < fuel)%nat ->
  exists text,
    csp.toRadix_result fuel T 10 this = Some text /\
    csp.Integral_of_string T text = Some this /\
    (0 < csp.m_value this -> text = csp.operator_string this) /\
    (csp.m_value this = 0 ->
     text = EmptyString /\ csp.operator_string this = "0"%string).
Proof.
  destruct this as [v]. cbn [csp.m_value]. intros HT Hv Hf.
  destruct (Z.eq_dec v 0) as [-> | Hnz].
  - exists EmptyString. split; [apply toRadix_zero; lia |].
    split; [reflexivity |]. split; [lia |]. intros _. split; reflexivity.
  - assert (Htext : std.render 10 v = csp.operator_string (csp.mkIntegral v)).
    { unfold csp.operator_string, std.to_string. cbn [csp.m_value].
      destruct (Z.ltb_spec v 0); [lia | reflexivity]. }
    exists (std.render 10 v).
    split; [apply (toRadix_standard fuel T 10 (csp.mkIntegral v));
            first [exact HT | cbn; lia] |].
    split; [rewrite Htext; apply of_string_to_string; exact HT |].
    split; [intros _; exact Htext | lia].
Qed.

Lemma dec_versus_string_witness :
  exists text,
    csp.toRadix_result 65 int 10 (csp.mkIntegral 0) = Some text /\
    csp.Integral_of_string int text = Some (csp.mkIntegral 0) /\
    text = EmptyString /\
    csp.operator_string (csp.mkIntegral 0) = "0"%string.
Proof.
  destruct (dec_versus_string 65 int (csp.mkIntegral 0))
    as (text & Hdec & Hback & _ & Hzero);
    [range_by_computation | cbn; lia | lia |].
  destruct (Hzero eq_refl) as [Hempty Hstr].
  exists text. repeat split; assumption.
Defined.

Lemma selected_base_0b (c : ascii) (text : string) :
  c = "b"%char \/ c = "B"%char ->
  spec.selected_base (String "0" (String c text)) = 2 /\
  spec.numeral_part (String "0" (String c text)) = text.
Proof. intros [-> | ->]; destruct text; split; reflexivity. Qed.

Lemma binary_from_numeral (T : ity) (text : string) (v : Z) :
  spec.numeral_value 2 text = Some v ->
  (String.length text <= Z.to_nat (numeric_limits_digits T))%nat ->
  (if std.all_bits (std.str_take (Z.to_nat (numeric_limits_digits T)) text)
   then cxx.cast T
          (std.bits_value
             (std.str_take (Z.to_nat (numeric_limits_digits T)) text) 0)
   else 0) = v.
Proof.
  intros Hnum Hlen. rewrite binary_cut_all_or_nothing.
  rewrite str_take_all by exact Hlen.
  unfold spec.all_or_nothing. unfold spec.numeral_value in Hnum.
  destruct text as [| c r]; [discriminate |].
  destruct (length (spec.leading_digits 2 (String c r))
            =? String.length (String c r))%nat; congruence.
Qed.

Lemma render_binary_length (T : ity) (v : Z) :
  in_range T v -> 0 < v ->
  (String.length (std.render 2 v) <= Z.to_nat (numeric_limits_digits T))%nat.
Proof.
  intros HT Hv. unfold std.render.
  pose proof (render_go_length 2 (Z.to_nat (Z.log2 v)) v EmptyString) as Hlen.
  cbn [String.length] in Hlen.
  destruct (max_digits T) as [Hmax Hd].
  assert (Z.log2 v < numeric_limits_digits T).
  { apply Z.log2_lt_pow2; [lia |]. unfold in_range in HT. lia. }
  pose proof (Z.log2_nonneg v). lia.
Qed.

(** X5: for a value of [T] that is not negative, the text that [bin()],
    which is [toRadix(2)], assembles in its local [result] is read by the
    string constructor, behind the prefix "0b" or "0B", as the value;
    this holds for zero too, whose text is empty. *)
Theorem bin_round_trip (fuel : nat) (T : ity) (this : csp.Integral)
    (c : ascii) :
  in_range T (csp.m_value this) -> 0 <= csp.m_value this -> (64 < fuel)%nat ->
  c = "b"%char \/ c = "B"%char ->
  exists text,
    csp.toRadix_result fuel T 2 this = Some text /\
    csp.Integral_of_string T (String "0" (String c text)) = Some this.
Proof.
  destruct this as [v]. cbn [csp.m_value]. intros HT Hv Hf Hc.
  destruct (Z.eq_dec v 0) as [-> | Hnz].
  - exists EmptyString. split; [apply toRadix_zero; lia |].
    destruct (selected_base_0b c EmptyString Hc) as [Hbase Hpart].
    rewrite of_string_bin by exact Hbase. rewrite Hpart.
    rewrite str_take_empty. cbn [std.all_bits std.bits_value].
    rewrite cast_zero. reflexivity.
  - exists (std.render 2 v).
    split; [apply (toRadix_standard fuel T 2 (csp.mkIntegral v));
            first [exact HT | cbn; lia] |].
    destruct (selected_base_0b c (std.render 2 v) Hc) as [Hbase Hpart].
    rewrite of_string_bin by exact Hbase. rewrite Hpart.
    rewrite (binary_from_numeral T _ v); [reflexivity | |].
    + apply render_numeral; lia.
    + apply render_binary_length; [exact HT | lia].
Qed.

Lemma bin_round_trip_witness :
  exists text,
    csp.toRadix_result 65 long_long 2 (csp.mkIntegral 12) = Some text /\
    csp.Integral_of_string long_long (String "0" (String "b" text))
    = Some (csp.mkIntegral 12).
Proof.
  apply (bin_round_trip 65 long_long (csp.mkIntegral 12) "b");
    [range_by_computation | cbn; lia | lia | left; reflexivity].
Defined.

(** ** Which texts determine the value *)

Lemma max_ge_short (T : ity) : 32767 <= numeric_limits_max T.
Proof. destruct T as [[] []]; cbn; lia. Qed.

Lemma to_string_nonneg (v : Z) : 0 <= v -> std.to_string v = std.render 10 v.
Proof. intros H. unfold std.to_string. destruct (Z.ltb_spec v 0); [lia | reflexivity]. Qed.

(** The text of [toRadix], read as a numeral of the radix (of base ten
    for the radix zero and above sixteen), has the value converted. *)
Lemma toRadix_read_back (fuel : nat) (T : ity) (radix v : Z) :
  radix = 0 \/ 2 <= radix <= 10 \/ 16 <= radix ->
  in_range T v -> 0 <= v -> (64 < fuel)%nat ->
  exists text,
    csp.toRadix_result fuel T radix (csp.mkIntegral v) = Some text /\
    spec.prefix_parse (if (radix =? 0) || (16 <? radix) then 10 else radix) text
    = v.
Proof.
  intros Hr HT Hv Hf.
  assert (Hmod : v mod 2 ^ width T = v).
  { destruct (unsigned_of_value T v HT) as [E _]. rewrite E.
    destruct (Z.ltb_spec v 0); [lia | reflexivity]. }
  destruct (Z.eqb_spec radix 0) as [-> | Hnz].
  { exists (std.render 10 v). split.
    - unfold csp.toRadix_result. cbn [csp.m_value Z.eqb orb].
      rewrite to_string_nonneg by exact Hv. reflexivity.
    - apply render_prefix_parse; lia. }
  destruct (Z.ltb_spec 16 radix) as [Hbig | Hsmall].
  { exists (std.render 10 v). split.
    - unfold csp.toRadix_result. destruct (Z.eqb_spec radix 0); [lia |].
      destruct (Z.ltb_spec 16 radix); [| lia]. cbn [orb csp.m_value].
      rewrite to_string_nonneg by exact Hv. reflexivity.
    - apply render_prefix_parse; lia. }
  cbn [orb]. destruct (Z.eq_dec radix 16) as [-> | H16].
  { exists (std.render 16 v). split.
    - rewrite toRadix_hex_text. cbn [csp.m_value]. rewrite Hmod. reflexivity.
    - apply render_prefix_parse; lia. }
  destruct (Z.eq_dec radix 8) as [-> | H8].
  { exists (std.render 8 v). split.
    - rewrite toRadix_oct_text. cbn [csp.m_value]. rewrite Hmod. reflexivity.
    - apply render_prefix_parse; lia. }
  destruct (Z.eq_dec v 0) as [-> | Hvz].
  { exists EmptyString. split; [apply toRadix_zero; lia | reflexivity]. }
  exists (std.render radix v). split.
  - apply (toRadix_standard fuel T radix (csp.mkIntegral v));
      first [exact HT | cbn; lia].
  - apply render_prefix_parse; lia.
Qed.

(** X6: for the radix zero, every radix from 2 to 10 and every radix from
    16 on, [toRadix] assembles different texts for two different values
    of [T] that are not negative. *)
Theorem toRadix_injective (fuel : nat) (T : ity) (radix : Z)
    (a b : csp.Integral) :
  radix = 0 \/ 2 <= radix <= 10 \/ 16 <= radix ->
  in_range T (csp.m_value a) -> 0 <= csp.m_value a ->
  in_range T (csp.m_value b) -> 0 <= csp.m_value b ->
  (64 < fuel)%nat ->
  a <> b ->
  csp.toRadix_result fuel T radix a <> csp.toRadix_result fuel T radix b.
Proof.
  destruct a as [va], b as [vb]. cbn [csp.m_value].
  intros Hr HTa Ha HTb Hb Hf Hne E. apply Hne.
  destruct (toRadix_read_back fuel T radix va Hr HTa Ha Hf) as (ta & Ea & Ra).
  destruct (toRadix_read_back fuel T radix vb Hr HTb Hb Hf) as (tb & Eb & Rb).
  rewrite Ea, Eb in E. injection E as ->. congruence.
Qed.

Lemma toRadix_injective_witness :
  csp.toRadix_result 65 int 2 (csp.mkIntegral 5)
  <> csp.toRadix_result 65 int 2 (csp.mkIntegral 6).
Proof.
  apply (toRadix_injective 65 int 2 (csp.mkIntegral 5) (csp.mkIntegral 6));
    [right; left; lia | range_by_computation | cbn; lia
    | range_by_computation | cbn; lia | lia | discriminate].
Defined.

(** X7: for a radix from 11 to 15 the text that [toRadix] assembles does
    not determine the value: for a digit [d] from 10 to the radix minus
    one, as a value, and for the value radix + (d - 10) the text is the
    same two characters "1" and [d - 10]. *)
Theorem toRadix_collision (fuel : nat) (T : ity) (radix d : Z) :
  11 <= radix <= 15 -> 10 <= d < radix -> (64 < fuel)%nat ->
  csp.toRadix_result fuel T radix (csp.mkIntegral d)
  = Some (String "1" (String (std.digit_char (d - 10)) EmptyString)) /\
  csp.toRadix_result fuel T radix (csp.mkIntegral (radix + (d - 10)))
  = Some (String "1" (String (std.digit_char (d - 10)) EmptyString)) /\
  d <> radix + (d - 10).
Proof.
  intros Hr Hd Hf. pose proof (max_ge_short T) as Hmax.
  pose proof (min_le_0 T) as Hmin.
  rewrite !toRadix_nonneg by (unfold in_range; cbn [csp.m_value]; lia).
  cbn [csp.m_value]. split; [| split; [| lia]].
  - assert (Hc : radix = 11 \/ radix = 12 \/ radix = 13 \/ radix = 14 \/ radix = 15)
      by lia.
    assert (H16 : 0 <= d < 16) by lia.
    repeat (destruct Hc as [-> | Hc]); try subst radix;
      each_small_digit H16; try lia; reflexivity.
  - assert (Hc : radix = 11 \/ radix = 12 \/ radix = 13 \/ radix = 14 \/ radix = 15)
      by lia.
    assert (H16 : 0 <= d < 16) by lia.
    repeat (destruct Hc as [-> | Hc]); try subst radix;
      each_small_digit H16; try lia; reflexivity.
Qed.

Lemma toRadix_collision_witness :
  csp.toRadix_result 65 int 11 (csp.mkIntegral 10) = Some "10"%string /\
  csp.toRadix_result 65 int 11 (csp.mkIntegral 11) = Some "10"%string.
Proof.
  destruct (toRadix_collision 65 int 11 10) as (H1 & H2 & _); [lia | lia | lia |].
  split; [exact H1 | exact H2].
Defined.

(** ** Calls of toRadix that do not return *)

(** Adding a multiple of [2^width] does not change what [T] holds. *)
Lemma cast_wrap (T : ity) (v k : Z) :
  in_range T v -> cxx.cast T (v + k * 2 ^ width T) = v.
Proof.
  unfold in_range, cxx.cast. intros HT.
  pose proof (pow2_width_split T) as Hs. pose proof (pow2_width_pos T) as Hp.
  destruct (limits_cases T) as [(Hmin & Hmax & ->) | (Hmin & Hmax & ->)];
    rewrite Hmin, Hmax in HT.
  - replace (v + k * 2 ^ width T + 2 ^ (width T - 1))
      with (v + 2 ^ (width T - 1) + k * 2 ^ width T) by lia.
    rewrite Z.mod_add by lia. rewrite Z.mod_small; lia.
  - rewrite Z.mod_add by lia. rewrite Z.mod_small; lia.
Qed.

Lemma pow64_multiple (T : ity) : 2 ^ 64 = 2 ^ (64 - width T) * 2 ^ width T.
Proof. destruct (width_cases T) as [-> | [-> | ->]]; reflexivity. Qed.

Lemma cast_to_size_t (T : ity) (v : Z) :
  in_range T v -> cxx.cast T (cxx.to_size_t v) = v.
Proof.
  intros HT. destruct (Z.lt_ge_cases v 0) as [Hneg | Hpos].
  - rewrite (to_size_t_negative T) by assumption.
    rewrite (pow64_multiple T). apply cast_wrap, HT.
  - rewrite (in_range_size_t T) by assumption. apply cast_in_range, HT.
Qed.

Lemma toRadix_divide_one (T : ity) (fuel : nat) (value : Z)
    (result_stack : list Z) :
  in_range T value -> value <> 0 ->
  csp.toRadix_divide fuel T 1 value result_stack = None.
Proof.
  intros HT Hnz. revert result_stack.
  induction fuel as [| fuel IH]; intros st; [reflexivity |].
  cbn [csp.toRadix_divide].
  destruct (Z.eqb_spec value 0) as [Hz | _]; [contradiction |].
  rewrite Z.div_1_r, cast_to_size_t by exact HT. apply IH.
Qed.

(** X8: [toRadix(1)] does not return for any value of [T] other than
    zero: dividing by one never brings the value to zero, whatever the
    number of iterations.  For zero it assembles the empty text and
    returns [c_str()] of it. *)
Theorem toRadix_one (fuel : nat) (T : ity) (this : csp.Integral)
    (m : gmap positive string) :
  in_range T (csp.m_value this) ->
  (csp.m_value this <> 0 -> csp.toRadix fuel T 1 this m = None) /\
  (csp.m_value this = 0 -> (0 < fuel)%nat ->
   csp.toRadix_result fuel T 1 this = Some EmptyString /\
   csp.toRadix fuel T 1 this m = Some (csp.return_c_str EmptyString m)).
Proof.
  intros HT.
  assert (E : csp.toRadix_result fuel T 1 this
              = result_stack ← csp.toRadix_divide fuel T 1 (csp.m_value this) [];
                Some (default EmptyString
                        (std.istream_extract_string
                           (csp.toRadix_emit result_stack EmptyString))))
    by reflexivity.
  split.
  - intros Hnz. apply toRadix_no_result. rewrite E.
    rewrite toRadix_divide_one by assumption. reflexivity.
  - intros Hz Hf.
    assert (E0 : csp.toRadix_result fuel T 1 this = Some EmptyString).
    { rewrite E, Hz. destruct fuel as [| fuel]; [lia | reflexivity]. }
    split; [exact E0 |]. unfold csp.toRadix. rewrite E0. reflexivity.
Qed.

Lemma toRadix_one_witness :
  csp.toRadix 1000 int 1 (csp.mkIntegral 7) ∅ = None /\
  csp.toRadix_result 1000 int 1 (csp.mkIntegral 0) = Some EmptyString.
Proof.
  split.
  - apply (toRadix_one 1000 int (csp.mkIntegral 7) ∅);
      [range_by_computation | discriminate].
  - apply (toRadix_one 1000 int (csp.mkIntegral 0) ∅);
      [range_by_computation | reflexivity | lia].
Defined.

(** On a type narrower than [std::size_t], halving or quartering a
    negative value gives a negative value again. *)
Lemma narrow_negative_step (T : ity) (radix v : Z) :
  ity_signed T = true -> width T < 64 -> radix = 2 \/ radix = 4 ->
  in_range T v -> v < 0 ->
  cxx.cast T (cxx.to_size_t v / radix) = v / radix /\
  v / radix < 0 /\ in_range T (v / radix).
Proof.
  intros Hs Hw Hr HT Hv. rewrite (to_size_t_negative T) by assumption.
  assert (Hq : v <= v / radix < 0).
  { split.
    - apply Z.div_le_lower_bound; [lia |]. nia.
    - apply Z.div_lt_upper_bound; lia. }
  assert (HTq : in_range T (v / radix))
    by (pose proof (max_ge_15 T); unfold in_range in *; lia).
  split; [| split; [lia | assumption]].
  assert (Hsplit : (v + 2 ^ 64) / radix = v / radix + 2 ^ 64 / radix).
  { destruct Hr as [-> | ->].
    - change (2 ^ 64) with (2 ^ 63 * 2) at 1. rewrite Z.div_add by lia.
      reflexivity.
    - change (2 ^ 64) with (2 ^ 62 * 4) at 1. rewrite Z.div_add by lia.
      reflexivity. }
  rewrite Hsplit.
  assert (Hk : exists k, 2 ^ 64 / radix = k * 2 ^ width T).
  { destruct (width_cases T) as [Hw' | [Hw' | Hw']]; rewrite Hw' in *;
      [| | lia]; destruct Hr as [-> | ->].
    - exists (2 ^ 47). reflexivity.
    - exists (2 ^ 46). reflexivity.
    - exists (2 ^ 31). reflexivity.
    - exists (2 ^ 30). reflexivity. }
  destruct Hk as [k ->]. apply cast_wrap, HTq.
Qed.

Lemma toRadix_divide_narrow_negative (T : ity) (radix : Z) (fuel : nat) :
  ity_signed T = true -> width T < 64 -> radix = 2 \/ radix = 4 ->
  forall (value : Z) (result_stack : list Z),
    in_range T value -> value < 0 ->
    csp.toRadix_divide fuel T radix value result_stack = None.
Proof.
  intros Hs Hw Hr. induction fuel as [| fuel IH]; intros v st HT Hv;
    [reflexivity |].
  cbn [csp.toRadix_divide].
  destruct (Z.eqb_spec v 0) as [Hz | _]; [lia |].
  destruct (narrow_negative_step T radix v Hs Hw Hr HT Hv) as (-> & Hq & HTq).
  apply IH; assumption.
Qed.

(** X9: on [short] and [int], [bin()] and [toRadix(4)] do not return for
    any negative value: the quotient, computed in 64 bits and cut back to
    the width of [T], stays negative and never reaches zero. *)
Theorem toRadix_negative_narrow (fuel : nat) (T : ity) (radix : Z)
    (this : csp.Integral) (m : gmap positive string) :
  ity_signed T = true -> width T < 64 -> radix = 2 \/ radix = 4 ->
  in_range T (csp.m_value this) -> csp.m_value this < 0 ->
  csp.toRadix fuel T radix this m = None /\
  (radix = 2 -> csp.bin fuel T this m = None).
Proof.
  intros Hs Hw Hr HT Hv.
  assert (E : csp.toRadix fuel T radix this m = None).
  { apply toRadix_no_result. rewrite toRadix_other_branch by lia.
    rewrite toRadix_divide_narrow_negative by assumption. reflexivity. }
  split; [exact E |]. intros ->. exact E.
Qed.

Lemma toRadix_negative_narrow_witness :
  csp.bin 1000 short (csp.mkIntegral (-1)) ∅ = None.
Proof.
  apply (toRadix_negative_narrow 1000 short 2 (csp.mkIntegral (-1)) ∅);
    [reflexivity | cbn; lia | left; reflexivity | range_by_computation
    | cbn; lia | reflexivity].
Defined.

(** ** The value of an object is always a value of T *)

Lemma cast_range (T : ity) (z : Z) : in_range T (cxx.cast T z).
Proof.
  unfold in_range, cxx.cast.
  pose proof (pow2_width_split T) as Hs. pose proof (pow2_width_pos T) as Hp.
  destruct (limits_cases T) as [(Hmin & Hmax & ->) | (Hmin & Hmax & ->)];
    rewrite Hmin, Hmax.
  - pose proof (Z.mod_pos_bound (z + 2 ^ (width T - 1)) (2 ^ width T)). lia.
  - pose proof (Z.mod_pos_bound z (2 ^ width T)). lia.
Qed.

Lemma cast_decompose (T : ity) (z : Z) :
  exists k, cxx.cast T z = z + k * 2 ^ width T.
Proof.
  unfold cxx.cast. pose proof (pow2_width_split T) as Hs.
  pose proof (pow2_width_pos T) as Hp. destruct (ity_signed T).
  - exists (- ((z + 2 ^ (width T - 1)) / 2 ^ width T)).
    rewrite Z.mod_eq by lia. lia.
  - exists (- (z / 2 ^ width T)). rewrite Z.mod_eq by lia. lia.
Qed.

Lemma arith_in_range (T : ity) (z r : Z) :
  cxx.cast T <$> cxx.eval (cxx.promote T) z = Some r -> in_range T r.
Proof.
  destruct (cxx.eval (cxx.promote T) z) as [y |]; [| discriminate].
  cbn. intros [= <-]. apply cast_range.
Qed.

Lemma store_in_range (T : ity) (neg : bool) (n : Z) :
  0 <= n -> in_range T (std.store T neg n).
Proof.
  intros Hn. unfold std.store.
  pose proof (min_le_0 T) as Hmin. pose proof (max_ge_15 T) as Hmax.
  destruct (ity_signed T) eqn:Hs.
  - destruct neg.
    + destruct (Z.ltb_spec (- numeric_limits_min T) n); unfold in_range; lia.
    + destruct (Z.ltb_spec (numeric_limits_max T) n); unfold in_range; lia.
  - destruct (Z.ltb_spec (numeric_limits_max T) n); [unfold in_range; lia |].
    destruct neg; [apply cast_range | unfold in_range; lia].
Qed.

Lemma prefix_parse_nonneg (base : Z) (s : string) (acc : Z) :
  1 <= base -> 0 <= acc ->
  0 <= fold_left (fun a d => a * base + d) (spec.leading_digits base s) acc.
Proof.
  intros Hb Hacc.
  apply (positional_bound base _ acc Hb (leading_digits_bounds base s) Hacc).
Qed.

(** Whatever the text, the extraction stores a value of [T]. *)
Lemma extract_in_range (T : ity) (f : std.basefield) (buf : string) :
  in_range T (default 0 (std.istream_extract_int T f buf)).
Proof.
  assert (H0 : in_range T 0).
  { pose proof (min_le_0 T). pose proof (max_ge_15 T). unfold in_range. lia. }
  unfold std.istream_extract_int.
  destruct (std.skipws buf) as [| c r]; [exact H0 |].
  destruct (std.read_sign (String c r)) as [neg s1].
  rewrite scan_digits_leading.
  cbv [default from_option id].
  match goal with
  | |- context [spec.leading_digits ?b ?s] =>
      pose proof (prefix_parse_nonneg b s 0) as Hpos;
      destruct (spec.leading_digits b s) as [| d ds]; [exact H0 |]
  end.
  apply store_in_range, Hpos; [destruct f; cbn; lia | lia].
Qed.

Lemma of_string_in_range (T : ity) (value : string) (obj : csp.Integral) :
  csp.Integral_of_string T value = Some obj -> in_range T (csp.m_value obj).
Proof.
  assert (H0 : in_range T 0).
  { pose proof (min_le_0 T). pose proof (max_ge_15 T). unfold in_range. lia. }
  unfold csp.Integral_of_string.
  destruct (csp.found_at_0 "0b" value || csp.found_at_0 "0B" value).
  - destruct (std.bitset _ value 2) as [[] | bits]; intros [= <-];
      first [exact H0 | apply cast_range].
  - destruct (csp.found_at_0 "0x" value); [| destruct (csp.found_at_0 "0" value)];
      intros [= <-]; apply extract_in_range.
Qed.

(** X10: every way of making an object gives it a value of [T]: the
    converting constructor (which the literal operators use), the string
    constructor on any text, unary minus and the five arithmetic
    operators whenever they are defined.  A value that is already one of
    [T] is converted to itself. *)
Theorem value_of_T (T : ity) :
  (forall ct, in_range T (csp.m_value (csp.Integral_of_compatible T ct))) /\
  (forall ct, in_range T ct -> csp.Integral_of_compatible T ct = csp.mkIntegral ct) /\
  (forall value obj,
      csp.Integral_of_string T value = Some obj -> in_range T (csp.m_value obj)) /\
  (forall a obj,
      csp.operator_neg T a = Some obj -> in_range T (csp.m_value obj)) /\
  (forall a b obj,
      csp.operator_add T a b = Some obj \/ csp.operator_sub T a b = Some obj \/
      csp.operator_mul T a b = Some obj \/ csp.operator_div T a b = Some obj \/
      csp.operator_mod T a b = Some obj ->
      in_range T (csp.m_value obj)).
Proof.
  assert (Hop : forall (o : option Z) (obj : csp.Integral),
             (forall r, o = Some r -> in_range T r) ->
             csp.mkIntegral <$> o = Some obj -> in_range T (csp.m_value obj)).
  { intros [r |] obj Hr; cbn; intros [= <-]. apply Hr. reflexivity. }
  split; [intros ct; apply cast_range |].
  split; [intros ct Hct; unfold csp.Integral_of_compatible;
          rewrite cast_in_range by exact Hct; reflexivity |].
  split; [apply of_string_in_range |].
  split.
  - intros a obj. apply Hop. intros r. apply arith_in_range.
  - intros a b obj H.
    destruct H as [H | [H | [H | [H | H]]]]; revert H; apply Hop; intros r.
    + apply arith_in_range.
    + apply arith_in_range.
    + apply arith_in_range.
    + unfold cxx.div. destruct (csp.m_value b =? 0); [discriminate |].
      apply arith_in_range.
    + unfold cxx.rem. destruct (csp.m_value b =? 0); [discriminate |].
      destruct (cxx.eval _ (Z.quot _ _)); [| discriminate].
      apply arith_in_range.
Qed.

Lemma value_of_T_witness :
  in_range unsigned_int
    (csp.m_value (csp.Integral_of_compatible unsigned_int (-1))) /\
  csp.Integral_of_compatible unsigned_int 7 = csp.mkIntegral 7 /\
  in_range int (csp.m_value (csp.mkIntegral 2147483647)).
Proof.
  destruct (value_of_T unsigned_int) as (Hc & Hid & _).
  destruct (value_of_T int) as (_ & _ & Hs & _).
  split; [apply Hc |]. split; [apply Hid; range_by_computation |].
  apply (Hs "99999999999"%string). reflexivity.
Defined.

(** ** Assignment and the store *)

(** X11: assigning an object gives the target the value of the operand
    and changes no other object; assigning an object to itself leaves the
    store as it is.  Assigning a number of a compatible type stores the
    number converted to [T], changes no other object and leaves no
    temporary behind: the store has the same objects as before. *)
Theorem assignment (T : ity) (h : gmap positive csp.Integral)
    (this carbon_copy : positive) (x c : csp.Integral) (ct : Z) :
  h !! this = Some x -> h !! carbon_copy = Some c ->
  (exists h',
      csp.operator_assign this carbon_copy h = Some (this, h') /\
      h' !! this = Some c /\
      (forall l, l <> this -> h' !! l = h !! l) /\
      (this = carbon_copy -> h' = h)) /\
  (exists h',
      csp.operator_assign_compatible T this ct h = Some (this, h') /\
      h' !! this = Some (csp.mkIntegral (cxx.cast T ct)) /\
      (forall l, l <> this -> h' !! l = h !! l) /\
      dom h' = dom h).
Proof.
  intros Hx Hc. split.
  - unfold csp.operator_assign, csp.checkAndAssign. rewrite Hx, Hc. cbn.
    eexists. split; [reflexivity |]. destruct (decide (this = carbon_copy)) as [E | N].
    + subst carbon_copy. split; [exact Hc |]. split; [reflexivity | reflexivity].
    + destruct c as [vc]. cbn [csp.m_value].
      split; [apply lookup_insert_eq |].
      split; [intros l Hl; apply lookup_insert_ne; congruence | contradiction].
  - unfold csp.operator_assign_compatible, csp.checkAndAssign.
    remember (fresh (dom h)) as temporary eqn:Htemp.
    assert (Hfresh : temporary ∉ dom h) by (subst temporary; apply is_fresh).
    assert (Hnone : h !! temporary = None) by (apply not_elem_of_dom; exact Hfresh).
    assert (Hne : this <> temporary)
      by (intros E; rewrite E, Hnone in Hx; discriminate Hx).
    assert (L1 : <[temporary := csp.Integral_of_compatible T ct]> h !! this
                 = Some x)
      by (rewrite lookup_insert_ne; [exact Hx | congruence]).
    assert (L2 : <[temporary := csp.Integral_of_compatible T ct]> h !! temporary
                 = Some (csp.Integral_of_compatible T ct))
      by apply lookup_insert_eq.
    rewrite L1. cbn. rewrite L2. cbn.
    destruct (decide (this = temporary)) as [E | _]; [contradiction |].
    eexists. split; [reflexivity |]. split; [| split].
    + rewrite lookup_delete_ne by congruence. apply lookup_insert_eq.
    + intros l Hl. destruct (decide (l = temporary)) as [-> | Hlt].
      * rewrite lookup_delete_eq. symmetry. exact Hnone.
      * rewrite lookup_delete_ne by congruence.
        rewrite !lookup_insert_ne by congruence. reflexivity.
    + rewrite dom_delete_L, !dom_insert_L.
      assert (Hin : this ∈ dom h) by (apply elem_of_dom; eauto).
      apply set_eq. intros l.
      rewrite elem_of_difference, !elem_of_union, !elem_of_singleton.
      split.
      * intros [[-> | [-> | Hl]] Hnot]; [exact Hin | contradiction | exact Hl].
      * intros Hl. split; [right; right; exact Hl |].
        intros ->. contradiction.
Qed.

Lemma assignment_witness :
  let h : gmap positive csp.Integral :=
    <[2%positive := csp.mkIntegral 0]> {[1%positive := csp.mkIntegral 7]} in
  (exists h', csp.operator_assign 2 1 h = Some (2%positive, h') /\
              h' !! 2%positive = Some (csp.mkIntegral 7)) /\
  (exists h', csp.operator_assign_compatible int 2 70000 h = Some (2%positive, h') /\
              h' !! 2%positive = Some (csp.mkIntegral 70000) /\
              dom h' = dom h).
Proof.
  intros h.
  destruct (assignment int h 2 1 (csp.mkIntegral 0) (csp.mkIntegral 7) 70000)
    as [(h1 & E1 & L1 & _) (h2 & E2 & L2 & _ & D2)]; [reflexivity | reflexivity |].
  split; [exists h1; split; assumption |].
  exists h2. split; [exact E2 |]. split; [exact L2 | exact D2].
Defined.

Lemma objects_in_range_insert (T : ity) (h : gmap positive csp.Integral)
    (l : positive) (x : csp.Integral) :
  spec.objects_in_range T h -> in_range T (csp.m_value x) ->
  spec.objects_in_range T (<[l := x]> h).
Proof.
  intros Hh Hx l' x' E. destruct (decide (l = l')) as [-> | N].
  - rewrite lookup_insert_eq in E. injection E as <-. exact Hx.
  - rewrite lookup_insert_ne in E by exact N. eapply Hh, E.
Qed.

Lemma objects_in_range_delete (T : ity) (h : gmap positive csp.Integral)
    (l : positive) :
  spec.objects_in_range T h -> spec.objects_in_range T (delete l h).
Proof.
  intros Hh l' x' E. destruct (decide (l = l')) as [-> | N].
  - rewrite lookup_delete_eq in E. discriminate.
  - rewrite lookup_delete_ne in E by exact N. eapply Hh, E.
Qed.

Lemma increment_in_range (T : ity) (v v' d : Z) :
  cxx.add T v d = Some v' \/ cxx.sub T v d = Some v' -> in_range T v'.
Proof. intros [H | H]; eapply arith_in_range; exact H. Qed.

(** X12: when every object of the store holds a value of [T], so does
    every object of the store after an increment or a decrement, prefix
    or postfix, and after an assignment of an object or of a number. *)
Theorem store_keeps_range (T : ity) (h h' : gmap positive csp.Integral)
    (this result : positive) :
  spec.objects_in_range T h ->
  csp.operator_pre_inc T this h = Some (result, h') \/
  csp.operator_post_inc T this h = Some (result, h') \/
  csp.operator_pre_dec T this h = Some (result, h') \/
  csp.operator_post_dec T this h = Some (result, h') \/
  (exists carbon_copy, csp.operator_assign this carbon_copy h = Some (result, h')) \/
  (exists ct, csp.operator_assign_compatible T this ct h = Some (result, h')) ->
  spec.objects_in_range T h'.
Proof.
  intros Hh H.
  destruct H as [H | [H | [H | [H | [[cc H] | [ct H]]]]]].
  - unfold csp.operator_pre_inc in H.
    destruct (h !! this) as [x |] eqn:Hx; [| discriminate]. cbn in H.
    destruct (cxx.add T (csp.m_value x) 1) as [v |] eqn:Hv; [| discriminate].
    cbn in H. injection H as <- <-.
    apply objects_in_range_insert; [exact Hh |].
    eapply increment_in_range. left. exact Hv.
  - unfold csp.operator_post_inc in H.
    destruct (h !! this) as [x |] eqn:Hx; [| discriminate]. cbn in H.
    destruct (cxx.add T (csp.m_value x) 1) as [v |] eqn:Hv; [| discriminate].
    cbn in H. injection H as <- <-.
    apply objects_in_range_insert; [| exact (Hh this x Hx)].
    apply objects_in_range_insert; [exact Hh |].
    eapply increment_in_range. left. exact Hv.
  - unfold csp.operator_pre_dec in H.
    destruct (h !! this) as [x |] eqn:Hx; [| discriminate]. cbn in H.
    destruct (cxx.sub T (csp.m_value x) 1) as [v |] eqn:Hv; [| discriminate].
    cbn in H. injection H as <- <-.
    apply objects_in_range_insert; [exact Hh |].
    eapply increment_in_range. right. exact Hv.
  - unfold csp.operator_post_dec in H.
    destruct (h !! this) as [x |] eqn:Hx; [| discriminate]. cbn in H.
    destruct (cxx.sub T (csp.m_value x) 1) as [v |] eqn:Hv; [| discriminate].
    cbn in H. injection H as <- <-.
    apply objects_in_range_insert; [| exact (Hh this x Hx)].
    apply objects_in_range_insert; [exact Hh |].
    eapply increment_in_range. right. exact Hv.
  - unfold csp.operator_assign, csp.checkAndAssign in H.
    destruct (h !! this) as [x |] eqn:Hx; [| discriminate]. cbn in H.
    destruct (h !! cc) as [c |] eqn:Hc; [| discriminate]. cbn in H.
    injection H as <- <-. destruct (decide (this = cc)); [exact Hh |].
    apply objects_in_range_insert; [exact Hh | exact (Hh cc c Hc)].
  - unfold csp.operator_assign_compatible, csp.checkAndAssign in H.
    set (temporary := fresh (dom h)) in H.
    set (h1 := <[temporary := csp.Integral_of_compatible T ct]> h) in H.
    assert (H1 : spec.objects_in_range T h1)
      by (apply objects_in_range_insert; [exact Hh | apply cast_range]).
    destruct (h1 !! this) as [x |] eqn:Hx; [| discriminate]. cbn in H.
    destruct (h1 !! temporary) as [c |] eqn:Hc; [| discriminate]. cbn in H.
    injection H as <- <-. apply objects_in_range_delete.
    destruct (decide (this = temporary)); [exact H1 |].
    apply objects_in_range_insert; [exact H1 | exact (H1 temporary c Hc)].
Qed.

Lemma store_keeps_range_witness :
  spec.objects_in_range short
    (<[1%positive := csp.mkIntegral (-32768)]>
       {[1%positive := csp.mkIntegral 32767]}).
Proof.
  apply (store_keeps_range short {[1%positive := csp.mkIntegral 32767]} _
           1 1).
  - intros l x Hl. destruct (decide (l = 1%positive)) as [-> | N].
    + rewrite lookup_singleton_eq in Hl. injection Hl as <-.
      range_by_computation.
    + rewrite lookup_singleton_ne in Hl by congruence. discriminate.
  - left. reflexivity.
Defined.

(** ** Unary minus *)

Lemma cast_idempotent (T : ity) (z : Z) : cxx.cast T (cxx.cast T z) = cxx.cast T z.
Proof. apply cast_in_range, cast_range. Qed.

Lemma promote_cases (T : ity) :
  (ity_rank T = Short /\ cxx.promote T = int) \/
  (ity_rank T <> Short /\ cxx.promote T = T).
Proof. destruct T as [[] s]; cbn; auto; right; split; congruence. Qed.

Lemma short_fits_int (T : ity) (z : Z) :
  ity_rank T = Short -> in_range T z -> -65535 <= z <= 65535.
Proof. destruct T as [[] []]; try discriminate; unfold in_range; cbn; lia. Qed.

(** The value of an expression of the promoted type, stored in [T]. *)
Lemma arith_value (T : ity) (z r : Z) :
  cxx.cast T <$> cxx.eval (cxx.promote T) z = Some r -> r = cxx.cast T z.
Proof.
  unfold cxx.eval. destruct (promote_cases T) as [[Hk ->] | [Hk ->]].
  - cbn [ity_signed int]. destruct (bool_decide _); cbn; congruence.
  - destruct (ity_signed T).
    + destruct (bool_decide _); cbn; congruence.
    + cbn. rewrite cast_idempotent. congruence.
Qed.

(** An expression whose terms are values of a short type is defined. *)
Lemma arith_defined (T : ity) (z : Z) :
  (ity_rank T = Short -> -200000 <= z <= 200000) ->
  (ity_rank T <> Short -> ity_signed T = true -> in_range T z) ->
  cxx.cast T <$> cxx.eval (cxx.promote T) z = Some (cxx.cast T z).
Proof.
  intros Hshort Hwide. unfold cxx.eval.
  destruct (promote_cases T) as [[Hk ->] | [Hk ->]].
  - cbn [ity_signed int]. rewrite bool_decide_eq_true_2; [reflexivity |].
    specialize (Hshort Hk). unfold in_range. cbn. lia.
  - destruct (ity_signed T) eqn:Hs.
    + rewrite bool_decide_eq_true_2 by auto. reflexivity.
    + cbn. rewrite cast_idempotent. reflexivity.
Qed.

Lemma neg_cast_neg (T : ity) (v : Z) :
  in_range T v -> cxx.cast T (- cxx.cast T (- v)) = v.
Proof.
  intros HT. destruct (cast_decompose T (- v)) as [k ->].
  replace (- (- v + k * 2 ^ width T)) with (v + (- k) * 2 ^ width T) by lia.
  apply cast_wrap, HT.
Qed.

Lemma add_cast_neg (T : ity) (v : Z) : cxx.cast T (v + cxx.cast T (- v)) = 0.
Proof.
  destruct (cast_decompose T (- v)) as [k ->].
  replace (v + (- v + k * 2 ^ width T)) with (0 + k * 2 ^ width T) by lia.
  apply cast_wrap. pose proof (min_le_0 T). pose proof (max_ge_15 T).
  unfold in_range. lia.
Qed.

(** X13: unary minus gives the opposite value for every value of a signed
    [T] but the least, and the value modulo 2^width on an unsigned [T];
    at the least value of [int], [long] and [long long] it is undefined.
    Whenever it is defined, negating the result gives the operand back
    and the sum of the operand and the result is zero. *)
Theorem negation (T : ity) (this : csp.Integral) :
  in_range T (csp.m_value this) ->
  (ity_signed T = true -> csp.m_value this <> numeric_limits_min T ->
   csp.operator_neg T this = Some (csp.mkIntegral (- csp.m_value this))) /\
  (ity_signed T = false ->
   csp.operator_neg T this
   = Some (csp.mkIntegral ((- csp.m_value this) mod 2 ^ width T))) /\
  (ity_signed T = true -> ity_rank T <> Short ->
   csp.m_value this = numeric_limits_min T ->
   csp.operator_neg T this = None) /\
  (forall result,
      csp.operator_neg T this = Some result ->
      csp.operator_neg T result = Some this /\
      csp.operator_add T this result = Some (csp.mkIntegral 0)).
Proof.
  destruct this as [v]. cbn [csp.m_value]. intros HT.
  unfold csp.operator_neg, csp.operator_add, cxx.neg, cxx.add. cbn [csp.m_value].
  pose proof (min_le_0 T) as Hmin. pose proof (max_ge_15 T) as Hmax.
  split; [| split; [| split]].
  - intros Hs Hne.
    assert (Hr : in_range T (- v)).
    { unfold in_range, numeric_limits_min, numeric_limits_max in *.
      rewrite Hs in *. lia. }
    rewrite arith_exact by exact Hr. reflexivity.
  - intros Hs. rewrite arith_defined.
    + unfold cxx.cast. rewrite Hs. reflexivity.
    + intros Hk. pose proof (short_fits_int T v Hk HT). lia.
    + intros _ Hs'. congruence.
  - intros Hs Hk ->. unfold cxx.eval.
    destruct (promote_cases T) as [[Hk' _] | [_ ->]]; [contradiction |].
    rewrite Hs. rewrite bool_decide_eq_false_2; [reflexivity |].
    unfold in_range, numeric_limits_min, numeric_limits_max. rewrite Hs.
    pose proof (pow2_width_pos T). lia.
  - intros [r] E. cbn [csp.m_value].
    destruct (cxx.cast T <$> cxx.eval (cxx.promote T) (- v)) as [r' |] eqn:Er;
      [| discriminate].
    cbn in E. injection E as <-.
    pose proof (arith_value T _ _ Er) as ->.
    assert (Hwide : ity_rank T <> Short -> ity_signed T = true ->
                    in_range T (- v) /\ cxx.cast T (- v) = - v).
    { intros Hk Hs. unfold cxx.eval in Er.
      destruct (promote_cases T) as [[Hk' _] | [_ Hp]]; [contradiction |].
      rewrite Hp, Hs in Er.
      destruct (bool_decide (in_range T (- v))) eqn:Hb; [| discriminate].
      apply bool_decide_eq_true in Hb. split; [exact Hb |].
      apply cast_in_range, Hb. }
    pose proof (cast_range T (- v)) as Hr.
    split.
    + rewrite arith_defined.
      * rewrite neg_cast_neg by exact HT. reflexivity.
      * intros Hk. pose proof (short_fits_int T _ Hk Hr). lia.
      * intros Hk Hs. destruct (Hwide Hk Hs) as [_ ->].
        replace (- - v) with v by lia. exact HT.
    + rewrite arith_defined.
      * rewrite add_cast_neg. reflexivity.
      * intros Hk. pose proof (short_fits_int T _ Hk Hr).
        pose proof (short_fits_int T _ Hk HT). lia.
      * intros Hk Hs. destruct (Hwide Hk Hs) as [_ ->].
        replace (v + - v) with 0 by lia. unfold in_range. lia.
Qed.

Lemma negation_witness :
  csp.operator_neg short (csp.mkIntegral 7) = Some (csp.mkIntegral (-7)) /\
  csp.operator_neg unsigned_int (csp.mkIntegral 1)
  = Some (csp.mkIntegral 4294967295) /\
  csp.operator_neg int (csp.mkIntegral (-2147483648)) = None /\
  csp.operator_neg short (csp.mkIntegral (-7)) = Some (csp.mkIntegral 7).
Proof.
  destruct (negation short (csp.mkIntegral 7)) as (H1 & _ & _ & H4);
    [range_by_computation |].
  destruct (negation unsigned_int (csp.mkIntegral 1)) as (_ & H2 & _ & _);
    [range_by_computation |].
  destruct (negation int (csp.mkIntegral (-2147483648))) as (_ & _ & H3 & _);
    [range_by_computation |].
  split; [apply H1; [reflexivity | discriminate] |].
  split; [apply H2; reflexivity |].
  split; [apply H3; [reflexivity | discriminate | reflexivity] |].
  apply (H4 (csp.mkIntegral (-7))). apply H1; [reflexivity | discriminate].
Defined.

(** ** Parity *)

Lemma odd_cast (T : ity) (z : Z) : Z.odd (cxx.cast T z) = Z.odd z.
Proof.
  destruct (cast_decompose T z) as [k ->]. rewrite (pow2_width_split T).
  replace (z + k * (2 * 2 ^ (width T - 1)))
    with (z + 2 * (k * 2 ^ (width T - 1))) by lia.
  apply Z.odd_add_mul_2.
Qed.

Lemma odd_of_result (T : ity) (z : Z) (o : option Z) (result : csp.Integral) :
  o = cxx.cast T <$> cxx.eval (cxx.promote T) z ->
  csp.mkIntegral <$> o = Some result ->
  csp.odd result = Z.odd z.
Proof.
  intros -> E.
  destruct (cxx.cast T <$> cxx.eval (cxx.promote T) z) as [r |] eqn:Er;
    [| discriminate].
  cbn in E. injection E as <-. unfold csp.odd. cbn [csp.m_value].
  rewrite Z.bit0_odd. rewrite (arith_value T z r Er). apply odd_cast.
Qed.

(** X14: [odd()] tells whether the value is odd, also for a negative value,
    and [even()] is its negation.  The parity of a sum or a difference
    that is defined is the exclusive or of the parities of the operands,
    that of a product their conjunction and that of the opposite the
    parity of the operand, also when the result wraps around. *)
Theorem parity (T : ity) (a b : csp.Integral) :
  csp.odd a = Z.odd (csp.m_value a) /\
  csp.even a = Z.even (csp.m_value a) /\
  (forall r, csp.operator_add T a b = Some r ->
             csp.odd r = xorb (csp.odd a) (csp.odd b)) /\
  (forall r, csp.operator_sub T a b = Some r ->
             csp.odd r = xorb (csp.odd a) (csp.odd b)) /\
  (forall r, csp.operator_mul T a b = Some r ->
             csp.odd r = csp.odd a && csp.odd b) /\
  (forall r, csp.operator_neg T a = Some r -> csp.odd r = csp.odd a).
Proof.
  assert (Hodd : forall x, csp.odd x = Z.odd (csp.m_value x))
    by (intros x; apply Z.bit0_odd).
  split; [apply Hodd |].
  split; [unfold csp.even; rewrite Hodd; apply Z.negb_odd |].
  rewrite !Hodd. repeat split; intros r E.
  - rewrite (odd_of_result T _ _ r eq_refl E). apply Z.odd_add.
  - rewrite (odd_of_result T _ _ r eq_refl E). apply Z.odd_sub.
  - rewrite (odd_of_result T _ _ r eq_refl E). apply Z.odd_mul.
  - rewrite (odd_of_result T _ _ r eq_refl E). apply Z.odd_opp.
Qed.

Lemma parity_witness :
  csp.operator_add unsigned_int (csp.mkIntegral 4294967295) (csp.mkIntegral 1)
  = Some (csp.mkIntegral 0) /\
  csp.odd (csp.mkIntegral 0)
  = xorb (csp.odd (csp.mkIntegral 4294967295)) (csp.odd (csp.mkIntegral 1)).
Proof.
  split; [reflexivity |].
  destruct (parity unsigned_int (csp.mkIntegral 4294967295) (csp.mkIntegral 1))
    as (_ & _ & Hadd & _).
  apply Hadd. reflexivity.
Defined.

(** ** Reading and writing through streams *)

Lemma to_string_without_space (v : Z) :
  spec.all_chars (fun c => negb (std.isspace c)) (std.to_string v) = true.
Proof.
  unfold std.to_string. destruct (v <? 0).
  - cbn [spec.all_chars]. rewrite render_without_space by lia. reflexivity.
  - apply render_without_space. lia.
Qed.

Lemma to_string_nonempty (v : Z) : std.to_string v <> EmptyString.
Proof.
  unfold std.to_string. destruct (v <? 0); [discriminate | apply render_nonempty].
Qed.

(** A word followed by the end of the text or by white space. *)
Lemma word_then_rest (word rest : string) :
  spec.all_chars (fun c => negb (std.isspace c)) word = true ->
  std.skipws rest <> rest \/ rest = EmptyString ->
  std.take_word (word +:+ rest) = word /\
  std.drop_word (word +:+ rest) = rest.
Proof.
  intros Hw Hrest. induction word as [| c word IH].
  - change (EmptyString +:+ rest) with rest.
    destruct rest as [| c r]; [split; reflexivity |].
    destruct Hrest as [Hsp | E]; [| discriminate].
    cbn [std.skipws std.take_word std.drop_word] in *.
    destruct (std.isspace c); [split; reflexivity | contradiction].
  - rewrite str_app_cons. cbn [spec.all_chars] in Hw.
    apply andb_true_iff in Hw as [Hc Hw]. apply negb_true_iff in Hc.
    cbn [std.take_word std.drop_word]. rewrite Hc.
    destruct (IH Hw) as [-> ->]. split; reflexivity.
Qed.

(** X15: reading an object from a stream that holds the text written by
    [operator <<] for a value of [T], followed by white space or by
    nothing, gives that value and leaves what followed in the stream.
    When the stream holds nothing but white space the object is set to
    zero and the stream is left empty. *)
Theorem stream_round_trip (T : ity) (this : csp.Integral) (rest : string) :
  in_range T (csp.m_value this) ->
  std.skipws rest <> rest \/ rest = EmptyString ->
  csp.operator_extract T (csp.operator_insert T EmptyString this +:+ rest)
  = Some (this, rest) /\
  (std.skipws rest = EmptyString ->
   csp.operator_extract T rest = Some (csp.mkIntegral 0, EmptyString)).
Proof.
  destruct this as [v]. cbn [csp.m_value]. intros HT Hrest. split.
  - unfold csp.operator_insert, csp.operator_extract. cbn [csp.m_value].
    change (EmptyString +:+ ?t) with t.
    change (std.ostream_insert_int T std.fmt_dec v) with (std.to_string v).
    pose proof (to_string_without_space v) as Hns.
    pose proof (to_string_nonempty v) as Hne.
    destruct (word_then_rest _ rest Hns Hrest) as [Htake Hdrop].
    unfold std.istream_extract_string.
    assert (Hskip : std.skipws (std.to_string v +:+ rest)
                    = std.to_string v +:+ rest).
    { destruct (std.to_string v) as [| c w]; [congruence |].
      rewrite str_app_cons. cbn [spec.all_chars] in Hns.
      apply andb_true_iff in Hns as [Hc _]. apply negb_true_iff in Hc.
      cbn [std.skipws]. rewrite Hc. reflexivity. }
    rewrite Hskip.
    destruct (std.to_string v +:+ rest) as [| c w] eqn:Ew.
    { destruct (std.to_string v); [congruence | discriminate]. }
    cbv [default from_option id]. rewrite Htake, Hdrop.
    rewrite of_string_to_string by exact HT. reflexivity.
  - intros Hws. unfold csp.operator_extract, std.istream_extract_string.
    rewrite Hws. reflexivity.
Qed.

Lemma stream_round_trip_witness :
  csp.operator_extract int
    (csp.operator_insert int EmptyString (csp.mkIntegral (-42)) +:+ " 17")
  = Some (csp.mkIntegral (-42), " 17"%string) /\
  csp.operator_extract int "  " = Some (csp.mkIntegral 0, EmptyString).
Proof.
  destruct (stream_round_trip int (csp.mkIntegral (-42)) " 17") as [H1 _];
    [range_by_computation | left; discriminate |].
  destruct (stream_round_trip int (csp.mkIntegral 0) "  ") as [_ H2];
    [range_by_computation | left; discriminate |].
  split; [exact H1 | apply H2; reflexivity].
Defined.

(** ** Increments at the bounds of the type *)

Lemma add_one_at_max (T : ity) :
  cxx.add T (csp.static_max T) 1
  = if ity_signed T && negb (width T =? 16) then None
    else Some (csp.static_min T).
Proof. destruct T as [[] []]; reflexivity. Qed.

Lemma sub_one_at_min (T : ity) :
  cxx.sub T (csp.static_min T) 1
  = if ity_signed T && negb (width T =? 16) then None
    else Some (csp.static_max T).
Proof. destruct T as [[] []]; reflexivity. Qed.

(** The object that a postfix form returns is a new one. *)
Lemma produced_is_new (h : gmap positive csp.Integral) (this : positive)
    (x y : csp.Integral) :
  h !! this = Some x ->
  fresh (dom (<[this := y]> h)) <> this /\
  h !! fresh (dom (<[this := y]> h)) = None.
Proof.
  intros Hx. pose proof (is_fresh (dom (<[this := y]> h))) as Hp.
  apply not_elem_of_dom in Hp. split.
  - intros E. rewrite E, lookup_insert_eq in Hp. discriminate Hp.
  - destruct (decide (fresh (dom (<[this := y]> h)) = this)) as [E | Hne].
    + rewrite E, lookup_insert_eq in Hp. discriminate Hp.
    + rewrite lookup_insert_ne in Hp by congruence. exact Hp.
Qed.

(** X16: incrementing an object that holds [max()] is undefined on [int],
    [long] and [long long], in the prefix and in the postfix form.  On
    the unsigned types and on [short], where the sum is computed in [int]
    and converted back, the object holds [min()] afterwards in both
    forms: the prefix form returns the object itself, and the postfix
    form returns a new object that holds [max()].  Decrementing an object
    that holds [min()] behaves in the same way, with [max()] and [min()]
    exchanged. *)
Theorem increment_at_bounds (T : ity) (h : gmap positive csp.Integral)
    (this : positive) :
  (h !! this = Some (csp.mkIntegral (csp.static_max T)) ->
   if ity_signed T && negb (width T =? 16)
   then csp.operator_pre_inc T this h = None /\
        csp.operator_post_inc T this h = None
   else csp.operator_pre_inc T this h
        = Some (this, <[this := csp.mkIntegral (csp.static_min T)]> h) /\
        exists produced,
          produced <> this /\ h !! produced = None /\
          csp.operator_post_inc T this h
          = Some (produced,
                  <[produced := csp.mkIntegral (csp.static_max T)]>
                    (<[this := csp.mkIntegral (csp.static_min T)]> h))) /\
  (h !! this = Some (csp.mkIntegral (csp.static_min T)) ->
   if ity_signed T && negb (width T =? 16)
   then csp.operator_pre_dec T this h = None /\
        csp.operator_post_dec T this h = None
   else csp.operator_pre_dec T this h
        = Some (this, <[this := csp.mkIntegral (csp.static_max T)]> h) /\
        exists produced,
          produced <> this /\ h !! produced = None /\
          csp.operator_post_dec T this h
          = Some (produced,
                  <[produced := csp.mkIntegral (csp.static_min T)]>
                    (<[this := csp.mkIntegral (csp.static_max T)]> h))).
Proof.
  split; intros Hx.
  - unfold csp.operator_pre_inc, csp.operator_post_inc. rewrite Hx.
    cbn [mbind option_bind csp.m_value]. rewrite add_one_at_max.
    destruct (ity_signed T && negb (width T =? 16)); [split; reflexivity |].
    cbn [mbind option_bind]. split; [reflexivity |].
    destruct (produced_is_new h this _ (csp.mkIntegral (csp.static_min T)) Hx)
      as [Hne Hnone].
    eexists. split; [exact Hne |]. split; [exact Hnone | reflexivity].
  - unfold csp.operator_pre_dec, csp.operator_post_dec. rewrite Hx.
    cbn [mbind option_bind csp.m_value]. rewrite sub_one_at_min.
    destruct (ity_signed T && negb (width T =? 16)); [split; reflexivity |].
    cbn [mbind option_bind]. split; [reflexivity |].
    destruct (produced_is_new h this _ (csp.mkIntegral (csp.static_max T)) Hx)
      as [Hne Hnone].
    eexists. split; [exact Hne |]. split; [exact Hnone | reflexivity].
Qed.

Lemma increment_at_bounds_witness :
  (csp.operator_pre_inc short 1 {[1%positive := csp.mkIntegral 32767]}
   = Some (1%positive,
           <[1%positive := csp.mkIntegral (-32768)]>
             {[1%positive := csp.mkIntegral 32767]}) /\
   exists produced,
     produced <> 1%positive /\
     ({[1%positive := csp.mkIntegral 32767]} : gmap positive csp.Integral)
       !! produced = None /\
     csp.operator_post_inc short 1 {[1%positive := csp.mkIntegral 32767]}
     = Some (produced,
             <[produced := csp.mkIntegral 32767]>
               (<[1%positive := csp.mkIntegral (-32768)]>
                  {[1%positive := csp.mkIntegral 32767]}))) /\
  csp.operator_pre_inc int 1 {[1%positive := csp.mkIntegral 2147483647]} = None /\
  csp.operator_post_dec int 1 {[1%positive := csp.mkIntegral (-2147483648)]}
  = None.
Proof.
  destruct (increment_at_bounds short {[1%positive := csp.mkIntegral 32767]} 1)
    as [H1 _].
  destruct (increment_at_bounds int {[1%positive := csp.mkIntegral 2147483647]} 1)
    as [H2 _].
  destruct (increment_at_bounds int
              {[1%positive := csp.mkIntegral (-2147483648)]} 1) as [_ H3].
  split; [apply H1; reflexivity |].
  split; [apply H2; reflexivity | apply H3; reflexivity].
Defined.

(** ** The order of the comparison operators *)

(** X17: [a >= b] holds exactly when the value of [a] is strictly greater
    than that of [b], so it is [b < a], it is false when the two are
    equal, and [a <= b] and [b >= a] differ on a tie; [a > b] is [b <= a].
    Of [a < b], [a == b] and [b < a] exactly one holds, and [<] is
    transitive. *)
Theorem comparison_order (a b c : csp.Integral) :
  csp.operator_ge a b = csp.operator_lt b a /\
  csp.operator_ge a a = false /\
  csp.operator_gt a b = csp.operator_le b a /\
  (csp.operator_lt a b = true /\ csp.operator_eq a b = false /\
   csp.operator_lt b a = false \/
   csp.operator_lt a b = false /\ csp.operator_eq a b = true /\
   csp.operator_lt b a = false \/
   csp.operator_lt a b = false /\ csp.operator_eq a b = false /\
   csp.operator_lt b a = true) /\
  implb (csp.operator_lt a b && csp.operator_lt b c) (csp.operator_lt a c)
  = true.
Proof.
  destruct a as [x], b as [y], c as [z].
  unfold csp.operator_ge, csp.operator_gt, csp.operator_le, csp.operator_lt,
    csp.operator_eq. cbn [csp.m_value].
  repeat split.
  - destruct (Z.ltb_spec x y), (Z.eqb_spec x y), (Z.ltb_spec y x);
      cbn; try reflexivity; lia.
  - rewrite Z.ltb_irrefl, Z.eqb_refl. reflexivity.
  - destruct (Z.ltb_spec x y), (Z.eqb_spec y x), (Z.ltb_spec y x);
      cbn; try reflexivity; lia.
  - destruct (Z.ltb_spec x y), (Z.eqb_spec x y), (Z.ltb_spec y x);
      try lia; auto 10.
  - destruct (Z.ltb_spec x y), (Z.ltb_spec y z), (Z.ltb_spec x z);
      cbn; try reflexivity; lia.
Qed.

(** ** Numerals too large for the type *)

Lemma large_has_digits (base : Z) (s : string) (n : Z) :
  0 <= n -> n < spec.prefix_parse base s -> spec.leading_digits base s <> [].
Proof.
  unfold spec.prefix_parse, spec.positional. intros Hn Hlt E.
  rewrite E in Hlt. cbn in Hlt. lia.
Qed.

(** X18: a numeral too large for [T] does not wrap around.  On the base-16
    and base-8 paths, and on the base-10 path without a minus sign, digits
    whose value exceeds the largest value of [T] give that largest value;
    on the base-10 path of a signed [T], a minus sign followed by digits
    whose value exceeds the magnitude of the least value gives the least
    value. *)
Theorem string_saturates (T : ity) (value : string) :
  (spec.selected_base value = 16 ->
   numeric_limits_max T < spec.prefix_parse 16 (spec.numeral_part value) ->
   csp.Integral_of_string T value = Some (csp.mkIntegral (csp.static_max T))) /\
  (spec.selected_base value = 8 ->
   numeric_limits_max T < spec.prefix_parse 8 (spec.numeral_part value) ->
   csp.Integral_of_string T value = Some (csp.mkIntegral (csp.static_max T))) /\
  (spec.selected_base value = 10 ->
   forall body,
     std.read_sign (std.skipws value) = (false, body) ->
     numeric_limits_max T < spec.prefix_parse 10 body ->
     csp.Integral_of_string T value = Some (csp.mkIntegral (csp.static_max T))) /\
  (spec.selected_base value = 10 -> ity_signed T = true ->
   forall body,
     std.read_sign (std.skipws value) = (true, body) ->
     - numeric_limits_min T < spec.prefix_parse 10 body ->
     csp.Integral_of_string T value = Some (csp.mkIntegral (csp.static_min T))).
Proof.
  pose proof (max_ge_15 T) as Hmax. pose proof (min_le_0 T) as Hmin.
  split; [| split; [| split]].
  - intros Hb Hbig. rewrite of_string_hex by exact Hb.
    rewrite saturate_above by exact Hbig. reflexivity.
  - intros Hb Hbig. rewrite of_string_oct by exact Hb.
    rewrite saturate_above by exact Hbig. reflexivity.
  - intros Hb body Hsign Hbig.
    rewrite (of_string_dec_store T value false body) by assumption.
    pose proof (large_has_digits 10 body (numeric_limits_max T) ltac:(lia) Hbig)
      as Hne.
    destruct (spec.leading_digits 10 body) as [| d ds]; [contradiction |].
    rewrite store_magnitude, saturate_above by exact Hbig. reflexivity.
  - intros Hb Hs body Hsign Hbig.
    rewrite (of_string_dec_store T value true body) by assumption.
    pose proof (large_has_digits 10 body (- numeric_limits_min T) ltac:(lia)
                  Hbig) as Hne.
    destruct (spec.leading_digits 10 body) as [| d ds]; [contradiction |].
    unfold std.store. rewrite Hs.
    destruct (Z.ltb_spec (- numeric_limits_min T)
                (spec.prefix_parse 10 body)); [reflexivity | lia].
Qed.

Lemma string_saturates_witness :
  csp.Integral_of_string int "0xFFFFFFFF" = Some (csp.mkIntegral 2147483647) /\
  csp.Integral_of_string int "077777777777" = Some (csp.mkIntegral 2147483647) /\
  csp.Integral_of_string int "99999999999" = Some (csp.mkIntegral 2147483647) /\
  csp.Integral_of_string int "-99999999999"
  = Some (csp.mkIntegral (-2147483648)).
Proof.
  split; [| split; [| split]].
  - destruct (string_saturates int "0xFFFFFFFF") as (H & _).
    apply H; [reflexivity | vm_compute; reflexivity].
  - destruct (string_saturates int "077777777777") as (_ & H & _).
    apply H; [reflexivity | vm_compute; reflexivity].
  - destruct (string_saturates int "99999999999") as (_ & _ & H & _).
    apply (H eq_refl "99999999999"%string eq_refl). vm_compute. reflexivity.
  - destruct (string_saturates int "-99999999999") as (_ & _ & _ & H).
    apply (H eq_refl eq_refl "99999999999"%string eq_refl).
    vm_compute. reflexivity.
Defined.

(** ** Quotient and remainder *)

(** X19: for operands of [T] with a divisor other than zero and a
    quotient in the range of [T], the quotient times the divisor plus
    the remainder is the dividend, all computed with the operators of the
    class; the remainder is smaller in magnitude than the divisor and is
    never of the sign opposite to the dividend's. *)
Theorem quotient_remainder (T : ity) (a b : csp.Integral) :
  in_range T (csp.m_value a) -> in_range T (csp.m_value b) ->
  csp.m_value b <> 0 ->
  in_range T (Z.quot (csp.m_value a) (csp.m_value b)) ->
  exists q r p,
    csp.operator_div T a b = Some q /\ csp.operator_mod T a b = Some r /\
    csp.operator_mul T q b = Some p /\ csp.operator_add T p r = Some a /\
    Z.abs (csp.m_value r) < Z.abs (csp.m_value b) /\
    0 <= csp.m_value r * csp.m_value a.
Proof.
  destruct a as [x], b as [y]. cbn [csp.m_value]. intros Hx Hy Hnz Hq.
  exists (csp.mkIntegral (Z.quot x y)), (csp.mkIntegral (Z.rem x y)),
    (csp.mkIntegral (Z.quot x y * y)).
  unfold csp.operator_div, csp.operator_mod, csp.operator_mul,
    csp.operator_add, cxx.div, cxx.rem, cxx.mul, cxx.add. cbn [csp.m_value].
  pose proof Hnz as Hnz'. apply Z.eqb_neq in Hnz'. rewrite Hnz'.
  pose proof (Z.quot_rem' x y) as Hqr.
  pose proof (rem_in_range T x y Hx Hnz) as Hr.
  assert (Hp : in_range T (Z.quot x y * y)).
  { pose proof (min_le_0 T). pose proof (max_ge_15 T). unfold in_range in *.
    destruct (Z.le_gt_cases 0 x) as [Hpos | Hneg].
    - pose proof (Z.mul_quot_le x y Hpos Hnz) as Hm.
      rewrite (Z.mul_comm y) in Hm. lia.
    - pose proof (Z.mul_quot_ge x y ltac:(lia) Hnz) as Hm.
      rewrite (Z.mul_comm y) in Hm. lia. }
  rewrite (arith_exact T (Z.quot x y)) by exact Hq.
  rewrite (eval_in_range _ (Z.quot x y)) by (apply in_range_promote; exact Hq).
  rewrite (arith_exact T (Z.rem x y)) by exact Hr.
  rewrite (arith_exact T (Z.quot x y * y)) by exact Hp.
  rewrite (arith_exact T (Z.quot x y * y + Z.rem x y))
    by (replace (Z.quot x y * y + Z.rem x y) with x by lia; exact Hx).
  repeat split; cbn.
  - do 2 f_equal. lia.
  - apply Z.rem_bound_abs. exact Hnz.
  - apply Z.rem_sign_mul. exact Hnz.
Qed.

Lemma quotient_remainder_witness :
  exists q r p,
    csp.operator_div int (csp.mkIntegral (-7)) (csp.mkIntegral 2) = Some q /\
    csp.operator_mod int (csp.mkIntegral (-7)) (csp.mkIntegral 2) = Some r /\
    csp.operator_mul int q (csp.mkIntegral 2) = Some p /\
    csp.operator_add int p r = Some (csp.mkIntegral (-7)) /\
    Z.abs (csp.m_value r) < 2 /\ 0 <= csp.m_value r * -7.
Proof.
  apply (quotient_remainder int (csp.mkIntegral (-7)) (csp.mkIntegral 2));
    [range_by_computation | range_by_computation | discriminate
    | range_by_computation].
Defined.

(** ** Binary texts longer than the type, and the upper-case prefix *)

Lemma all_bits_take (n : nat) (s : string) :
  std.all_bits s = true -> std.all_bits (std.str_take n s) = true.
Proof.
  revert s. induction n as [| n IH]; intros s H; [reflexivity |].
  destruct s as [| c r]; [reflexivity |].
  cbn [std.all_bits std.str_take] in *.
  apply andb_true_iff in H as [Hc Hr]. rewrite Hc. apply IH, Hr.
Qed.

(** X20: of a binary text made of '0' and '1' only, the string constructor
    uses the first [numeric_limits<T>::digits] characters and ignores the
    rest: the value is the binary numeral of those characters, so that
    zeros at the front push the digits at the end out of the value. *)
Theorem binary_text_is_cut (T : ity) (value : string) :
  spec.selected_base value = 2 ->
  std.all_bits (spec.numeral_part value) = true ->
  csp.Integral_of_string T value
  = Some (csp.mkIntegral
            (spec.all_or_nothing 2
               (std.str_take (Z.to_nat (numeric_limits_digits T))
                  (spec.numeral_part value)))).
Proof.
  intros Hb Hbits. rewrite of_string_bin by exact Hb.
  apply f_equal, f_equal, binary_cut_all_or_nothing.
Qed.

Lemma binary_text_is_cut_witness :
  csp.Integral_of_string int "0b00000000000000000000000000000001"
  = Some (csp.mkIntegral 0) /\
  csp.Integral_of_string int "0b0000000000000000000000000000001"
  = Some (csp.mkIntegral 1).
Proof.
  split.
  - apply (binary_text_is_cut int "0b00000000000000000000000000000001");
      reflexivity.
  - apply (binary_text_is_cut int "0b0000000000000000000000000000001");
      reflexivity.
Defined.

(** X21: the upper-case prefix "0X" is not taken for hexadecimal: a text
    that begins with it is read in base 8, where 'X' ends the digits, and
    the object holds zero whatever follows. *)
Theorem upper_case_hex_prefix (T : ity) (rest : string) :
  spec.selected_base (String "0" (String "X" rest)) = 8 /\
  csp.Integral_of_string T (String "0" (String "X" rest))
  = Some (csp.mkIntegral 0).
Proof.
  assert (Hb : spec.selected_base (String "0" (String "X" rest)) = 8)
    by reflexivity.
  split; [exact Hb |]. rewrite of_string_oct by exact Hb.
  change (spec.prefix_parse 8 (spec.numeral_part (String "0" (String "X" rest))))
    with 0.
  rewrite saturate_fits by (pose proof (max_ge_15 T); lia). reflexivity.
Qed.

(** ** The pointers that the class hands out *)

(** X22: every [const char*] that the class hands out is dead when the
    caller receives it.  [toRadix], [hex], [dec], [oct], [bin] and the
    conversion to [const char*] return [c_str()] of a string of their
    own: after the call the memory is as it was before, no array is
    alive at the pointer returned, and reading the text through it, as
    [strcmp] does, is undefined, whatever the value, the radix and the
    memory. *)
Theorem returned_pointers_dangle (fuel : nat) (T : ity) (radix : Z)
    (this : csp.Integral) (m m' : gmap positive string) (p : positive) :
  csp.toRadix fuel T radix this m = Some (p, m') \/
  csp.hex fuel T this m = Some (p, m') \/
  csp.dec fuel T this m = Some (p, m') \/
  csp.oct fuel T this m = Some (p, m') \/
  csp.bin fuel T this m = Some (p, m') \/
  csp.operator_c_str this m = (p, m') ->
  m' = m /\ std.read m' p = None /\
  forall text, std.strcmp_is_0 m' p text = None.
Proof.
  assert (Hret : forall s, csp.return_c_str s m = (p, m') ->
                 m' = m /\ std.read m' p = None /\
                 forall text, std.strcmp_is_0 m' p text = None).
  { intros s E. destruct (return_c_str_dangling s m) as (q & Eq & Hread).
    rewrite Eq in E. injection E as -> ->.
    split; [reflexivity |]. split; [exact Hread |].
    intros text. unfold std.strcmp_is_0. rewrite Hread. reflexivity. }
  assert (Hradix : forall r, csp.toRadix fuel T r this m = Some (p, m') ->
                   m' = m /\ std.read m' p = None /\
                   forall text, std.strcmp_is_0 m' p text = None).
  { intros r E. unfold csp.toRadix in E.
    destruct (csp.toRadix_result fuel T r this) as [s |]; [| discriminate E].
    cbn [mbind option_bind] in E. apply (Hret s).
    destruct (csp.return_c_str s m) as [q mq]. congruence. }
  intros [E | [E | [E | [E | [E | E]]]]].
  - exact (Hradix radix E).
  - exact (Hradix 16 E).
  - exact (Hradix 10 E).
  - exact (Hradix 8 E).
  - exact (Hradix 2 E).
  - exact (Hret _ E).
Qed.

Lemma returned_pointers_dangle_witness :
  std.read ∅ 1%positive = None /\
  std.strcmp_is_0 ∅ 1%positive "ffffffffffffffff" = None.
Proof.
  destruct (returned_pointers_dangle 0 long_long 0 (csp.mkIntegral (-1))
              ∅ ∅ 1%positive) as (_ & Hread & Hcmp).
  - right. left. vm_compute. reflexivity.
  - split; [exact Hread | exact (Hcmp "ffffffffffffffff"%string)].
Defined.
